(** * chattr: the room / message / presence / reaction state engine

    A shallow embedding of the actor in [src/backend/main.mo] (Motoko).

    - [Nat] is unbounded in Motoko and is modelled by [nat]; [Int] by [Z];
      [Text] by [string]; [?T] by [option T]; [List.List<T>] by [list T]
      ([List.push] is cons); [OrderedMap.Map<Nat, V>] by [gmap nat V].
    - The actor's [var]s form the record [State]; a public update function
      becomes a function from the state before the call to the state after
      it, wrapped in a [result] when the function can trap: [Ok] with the
      state after the call, or [Trap] with the message given to
      [Debug.trap].  A trapped call commits nothing.
    - [Time.now ()] is constant during one call, so each function that
      reads the clock takes that reading as the argument [now].
    - [AccessControl] is an imported module: the answer of
      [AccessControl.hasPermission] is an argument of the one function
      that asks for it. *)

From Stdlib Require Import String Ascii ZArith List Sorted.
From stdpp Require Import base numbers option list strings gmap fin_maps sorting.

Local Open Scope string_scope.
Local Open Scope nat_scope.

(** ** Motoko base library: the few [Text] and [List] functions used *)

Module Text.

(** A [Text] is a sequence of Unicode characters, held here as its UTF-8
    bytes (every [Text] value of the program is valid UTF-8).  A character
    is a byte together with the continuation bytes, of the form 10xxxxxx,
    that follow it. *)
Definition isContinuation (c : ascii) : bool :=
  let n := nat_of_ascii c in (128 <=? n) && (n <? 192).

Definition continues (t : string) : bool :=
  match t with
  | EmptyString => false
  | String c _ => isContinuation c
  end.

(** [Text.toArray t]: the characters of [t], each as its bytes. *)
Fixpoint toArray (t : string) : list string :=
  match t with
  | EmptyString => []
  | String c t' =>
      if continues t' then
        match toArray t' with
        | ch :: rest => String c ch :: rest
        | [] => [String c EmptyString]
        end
      else String c EmptyString :: toArray t'
  end.

(** [Text.fromArray a] *)
Fixpoint fromArray (a : list string) : string :=
  match a with
  | [] => EmptyString
  | ch :: rest => String.append ch (fromArray rest)
  end.

(** [Text.size t]: the number of characters of [t]. *)
Definition size (t : string) : nat := List.length (toArray t).

Definition lowerChar (c : ascii) : ascii :=
  let n := nat_of_ascii c in
  if (65 <=? n) && (n <=? 90) then ascii_of_nat (n + 32) else c.

(** Case folding on the ASCII range.  It is applied to the URL that
    [validateMediaUrl] searches for ASCII patterns and nowhere else; the
    queries that fold room texts take the folding as a parameter. *)
Fixpoint toLowercase (t : string) : string :=
  match t with
  | EmptyString => EmptyString
  | String c t' => String (lowerChar c) (toLowercase t')
  end.

Definition startsWith (t p : string) : bool := String.prefix p t.

Fixpoint contains (t p : string) : bool :=
  if startsWith t p then true
  else match t with
       | EmptyString => false
       | String _ t' => contains t' p
       end.

Fixpoint endsWith (t p : string) : bool :=
  if bool_decide (t = p) then true
  else match t with
       | EmptyString => false
       | String _ t' => endsWith t' p
       end.

End Text.

(** [List.foldLeft (l, base, combine)] *)
Definition foldLeft {T S : Type} (l : list T) (base : S) (combine : S → T → S) : S :=
  fold_left combine l base.

(** [List.some (l, f)] *)
Definition some {T : Type} (l : list T) (f : T → bool) : bool := existsb f l.

(** ** Data model *)

Module Message.
Record t := mk {
  id : nat;
  content : string;
  timestamp : Z;
  sender : string;
  chatroomId : nat;
  mediaUrl : option string;
  mediaType : option string;
  avatarUrl : option string;
  senderId : string;
  replyToMessageId : option nat;
}.

(** [{ message with sender = v }] *)
Definition with_sender (m : t) (v : string) : t :=
  mk (id m) (content m) (timestamp m) v (chatroomId m) (mediaUrl m)
     (mediaType m) (avatarUrl m) (senderId m) (replyToMessageId m).

(** [{ message with avatarUrl = v }] *)
Definition with_avatarUrl (m : t) (v : option string) : t :=
  mk (id m) (content m) (timestamp m) (sender m) (chatroomId m) (mediaUrl m)
     (mediaType m) v (senderId m) (replyToMessageId m).
End Message.

Module Chatroom.
Record t := mk {
  id : nat;
  topic : string;
  description : string;
  mediaUrl : string;
  mediaType : string;
  createdAt : Z;
  messageCount : nat;
  viewCount : nat;
  pinnedVideoId : option nat;
  category : string;
}.

Definition with_messageCount (c : t) (v : nat) : t :=
  mk (id c) (topic c) (description c) (mediaUrl c) (mediaType c)
     (createdAt c) v (viewCount c) (pinnedVideoId c) (category c).

Definition with_viewCount (c : t) (v : nat) : t :=
  mk (id c) (topic c) (description c) (mediaUrl c) (mediaType c)
     (createdAt c) (messageCount c) v (pinnedVideoId c) (category c).

Definition with_pinnedVideoId (c : t) (v : option nat) : t :=
  mk (id c) (topic c) (description c) (mediaUrl c) (mediaType c)
     (createdAt c) (messageCount c) (viewCount c) v (category c).
End Chatroom.

Module UserProfile.
Record t := mk {
  name : string;
  avatarUrl : option string;
  anonId : string;
  presetAvatar : option string;
}.
End UserProfile.

Module ActiveUser.
Record t := mk {
  userId : string;
  lastActive : Z;
}.
End ActiveUser.

Module ChatroomWithLiveStatus.
Record t := mk {
  id : nat;
  topic : string;
  description : string;
  mediaUrl : string;
  mediaType : string;
  createdAt : Z;
  messageCount : nat;
  viewCount : nat;
  pinnedVideoId : option nat;
  isLive : bool;
  activeUserCount : nat;
  category : string;
}.

(** [{ chatroom with isLive = l; activeUserCount = n }] *)
Definition of_chatroom (c : Chatroom.t) (l : bool) (n : nat) : t :=
  mk (Chatroom.id c) (Chatroom.topic c) (Chatroom.description c)
     (Chatroom.mediaUrl c) (Chatroom.mediaType c) (Chatroom.createdAt c)
     (Chatroom.messageCount c) (Chatroom.viewCount c)
     (Chatroom.pinnedVideoId c) l n (Chatroom.category c).
End ChatroomWithLiveStatus.

Module Reaction.
Record t := mk {
  emoji : string;
  count : nat;
  users : list string;
}.
End Reaction.

(** A principal is an opaque key of the profile table. *)
Definition Principal := string.

(** The actor's mutable variables. *)
Record State := mkState {
  nextMessageId : nat;
  nextChatroomId : nat;
  chatrooms : gmap nat Chatroom.t;
  messages : gmap nat (list Message.t);
  activeUsers : gmap nat (list ActiveUser.t);
  reactions : gmap nat (list Reaction.t);
  userProfiles : gmap string UserProfile.t;
}.

Definition set_nextMessageId (s : State) (v : nat) : State :=
  mkState v (nextChatroomId s) (chatrooms s) (messages s) (activeUsers s)
          (reactions s) (userProfiles s).
Definition set_nextChatroomId (s : State) (v : nat) : State :=
  mkState (nextMessageId s) v (chatrooms s) (messages s) (activeUsers s)
          (reactions s) (userProfiles s).
Definition set_chatrooms (s : State) (v : gmap nat Chatroom.t) : State :=
  mkState (nextMessageId s) (nextChatroomId s) v (messages s) (activeUsers s)
          (reactions s) (userProfiles s).
Definition set_messages (s : State) (v : gmap nat (list Message.t)) : State :=
  mkState (nextMessageId s) (nextChatroomId s) (chatrooms s) v (activeUsers s)
          (reactions s) (userProfiles s).
Definition set_activeUsers (s : State) (v : gmap nat (list ActiveUser.t)) : State :=
  mkState (nextMessageId s) (nextChatroomId s) (chatrooms s) (messages s) v
          (reactions s) (userProfiles s).
Definition set_reactions (s : State) (v : gmap nat (list Reaction.t)) : State :=
  mkState (nextMessageId s) (nextChatroomId s) (chatrooms s) (messages s)
          (activeUsers s) v (userProfiles s).
Definition set_userProfiles (s : State) (v : gmap string UserProfile.t) : State :=
  mkState (nextMessageId s) (nextChatroomId s) (chatrooms s) (messages s)
          (activeUsers s) (reactions s) v.

(** The state of a freshly installed actor. *)
Definition init : State := mkState 0 0 ∅ ∅ ∅ ∅ ∅.

(** The outcome of an update call. *)
Inductive result (A : Type) : Type :=
| Ok (a : A)
| Trap (msg : string).
Arguments Ok {A} a.
Arguments Trap {A} msg.

(** [natMap.get (m, k)] with the [null] case read as the empty list. *)
Definition getOrNil {V : Type} (m : gmap nat (list V)) (k : nat) : list V :=
  match m !! k with
  | None => []
  | Some l => l
  end.

(** [60 * 1_000_000_000]: sixty seconds in the nanoseconds of [Time.now]. *)
Definition activeThreshold : Z := 60 * 1000000000.

(** ** Media validation *)

Definition isValidImageUrl (url : string) : bool :=
  let isBlobStorage := Text.contains url "blob-storage" in
  if isBlobStorage then true
  else
    let hasImageExtension :=
      Text.endsWith url ".jpg" || Text.endsWith url ".jpeg"
      || Text.endsWith url ".png" || Text.endsWith url ".gif" in
    hasImageExtension.

Definition isValidYouTubeUrl (url : string) : bool :=
  Text.contains url "youtube.com" || Text.contains url "youtu.be".

Definition isValidTwitchUrl (url : string) : bool :=
  Text.contains url "twitch.tv" || Text.contains url "clips.twitch.tv".

Definition isValidTwitterUrl (url : string) : bool :=
  Text.contains url "twitter.com" || Text.contains url "x.com".

Definition validateMediaUrl (url mediaType : string) : bool :=
  let lowerUrl := Text.toLowercase url in
  if bool_decide (mediaType = "image") then isValidImageUrl lowerUrl
  else if bool_decide (mediaType = "youtube") then isValidYouTubeUrl lowerUrl
  else if bool_decide (mediaType = "twitch") then isValidTwitchUrl lowerUrl
  else if bool_decide (mediaType = "twitter") then isValidTwitterUrl lowerUrl
  else false.

(** ** Chatrooms *)

(** The [chatroom] record built by [createChatroom]. *)
Definition createChatroom_chatroom (s : State) (now : Z)
    (topic description mediaUrl mediaType category : string) : Chatroom.t :=
  {| Chatroom.id := nextChatroomId s;
     Chatroom.topic := topic;
     Chatroom.description := description;
     Chatroom.mediaUrl := mediaUrl;
     Chatroom.mediaType := mediaType;
     Chatroom.createdAt := now;
     Chatroom.messageCount := 1;
     Chatroom.viewCount := 0;
     Chatroom.pinnedVideoId := None;
     Chatroom.category := category |}.

(** The seed message [firstMessage] built by [createChatroom]. *)
Definition createChatroom_firstMessage (s : State) (now : Z)
    (mediaUrl mediaType : string) : Message.t :=
  {| Message.id := nextMessageId s;
     Message.content := "Media content posted by creator";
     Message.timestamp := now;
     Message.sender := "Creator";
     Message.chatroomId := nextChatroomId s;
     Message.mediaUrl := Some mediaUrl;
     Message.mediaType := Some mediaType;
     Message.avatarUrl := None;
     Message.senderId := "creator";
     Message.replyToMessageId := None |}.

(** [createChatroom]: the new state and the returned [chatroom.id]. *)
Definition createChatroom (topic description mediaUrl mediaType category : string)
    (now : Z) (s : State) : result (State * nat) :=
  if (Text.size topic =? 0) || (Text.size description =? 0) then
    Trap "Topic and description cannot be empty"
  else if Text.size mediaUrl =? 0 then
    Trap "Media URL is required"
  else if Text.size category =? 0 then
    Trap "Category is required"
  else
    let isValidMedia := validateMediaUrl mediaUrl mediaType in
    if negb isValidMedia then
      Trap "Invalid media URL format. Must be uploaded image, YouTube, Twitch, or Twitter URL"
    else
      let chatroom :=
        createChatroom_chatroom s now topic description mediaUrl mediaType category in
      let s1 := set_chatrooms s (<[nextChatroomId s := chatroom]> (chatrooms s)) in
      let s2 := set_messages s1 (<[nextChatroomId s1 := []]> (messages s1)) in
      let firstMessage := createChatroom_firstMessage s2 now mediaUrl mediaType in
      let s3 :=
        set_messages s2 (<[nextChatroomId s2 := firstMessage :: []]> (messages s2)) in
      let s4 := set_nextMessageId s3 (nextMessageId s3 + 1) in
      let s5 := set_nextChatroomId s4 (nextChatroomId s4 + 1) in
      Ok (s5, Chatroom.id chatroom).

(** The window test shared by every liveness computation. *)
Definition withinThreshold (currentTime : Z) (user : ActiveUser.t) : bool :=
  bool_decide (Z.abs (currentTime - ActiveUser.lastActive user) ≤ activeThreshold)%Z.

(** The body that [getChatrooms] and [getChatroom] apply to one room. *)
Definition withLiveStatus (s : State) (currentTime : Z) (roomId : nat)
    (chatroom : Chatroom.t) : ChatroomWithLiveStatus.t :=
  let activeUsersForRoom := getOrNil (activeUsers s) roomId in
  let activeUserCount :=
    length (List.filter (withinThreshold currentTime) activeUsersForRoom) in
  ChatroomWithLiveStatus.of_chatroom chatroom (0 <? activeUserCount) activeUserCount.

Definition getChatroom (id : nat) (now : Z) (s : State)
    : option ChatroomWithLiveStatus.t :=
  match chatrooms s !! id with
  | None => None
  | Some chatroom => Some (withLiveStatus s now id chatroom)
  end.

(** ** Messages *)

(** The [message] record built by [sendMessage]. *)
Definition sendMessage_message (s : State) (now : Z) (content sender : string)
    (chatroomId : nat) (mediaUrl mediaType avatarUrl : option string)
    (senderId : string) (replyToMessageId : option nat) : Message.t :=
  {| Message.id := nextMessageId s;
     Message.content := content;
     Message.timestamp := now;
     Message.sender := sender;
     Message.chatroomId := chatroomId;
     Message.mediaUrl := mediaUrl;
     Message.mediaType := mediaType;
     Message.avatarUrl := avatarUrl;
     Message.senderId := senderId;
     Message.replyToMessageId := replyToMessageId |}.

(** The presence upsert shared by [sendMessage] and [incrementViewCount]. *)
Definition touch (users : list ActiveUser.t) (userId : string) (currentTime : Z)
    : list ActiveUser.t :=
  {| ActiveUser.userId := userId; ActiveUser.lastActive := currentTime |}
    :: List.filter (λ user, negb (bool_decide (ActiveUser.userId user = userId))) users.

Definition sendMessage (content sender : string) (chatroomId : nat)
    (mediaUrl mediaType avatarUrl : option string) (senderId : string)
    (replyToMessageId : option nat) (now : Z) (s : State) : result State :=
  if Text.size content =? 0 then Trap "Message content cannot be empty"
  else
    match chatrooms s !! chatroomId with
    | None => Trap "Chatroom does not exist"
    | Some chatroom =>
        let message :=
          sendMessage_message s now content sender chatroomId mediaUrl mediaType
                              avatarUrl senderId replyToMessageId in
        let chatroomMessages := getOrNil (messages s) chatroomId in
        let s1 := set_messages s (<[chatroomId := message :: chatroomMessages]> (messages s)) in
        let s2 := set_nextMessageId s1 (nextMessageId s1 + 1) in
        let updatedChatroom :=
          Chatroom.with_messageCount chatroom (Chatroom.messageCount chatroom + 1) in
        let s3 := set_chatrooms s2 (<[chatroomId := updatedChatroom]> (chatrooms s2)) in
        let currentTime := now in
        let activeUsersForRoom := getOrNil (activeUsers s3) chatroomId in
        let updatedActiveUsers := touch activeUsersForRoom senderId currentTime in
        Ok (set_activeUsers s3 (<[chatroomId := updatedActiveUsers]> (activeUsers s3)))
    end.

Definition getMessages (chatroomId : nat) (s : State) : list Message.t :=
  match messages s !! chatroomId with
  | None => []
  | Some chatroomMessages => rev chatroomMessages
  end.

Definition incrementViewCount (chatroomId : nat) (userId : string) (now : Z)
    (s : State) : result State :=
  match chatrooms s !! chatroomId with
  | None => Trap "Chatroom does not exist"
  | Some chatroom =>
      let updatedChatroom :=
        Chatroom.with_viewCount chatroom (Chatroom.viewCount chatroom + 1) in
      let s1 := set_chatrooms s (<[chatroomId := updatedChatroom]> (chatrooms s)) in
      let currentTime := now in
      let activeUsersForRoom := getOrNil (activeUsers s1) chatroomId in
      let updatedActiveUsers := touch activeUsersForRoom userId currentTime in
      Ok (set_activeUsers s1 (<[chatroomId := updatedActiveUsers]> (activeUsers s1)))
  end.

Definition pinVideo (chatroomId messageId : nat) (s : State) : result State :=
  match chatrooms s !! chatroomId with
  | None => Trap "Chatroom does not exist"
  | Some chatroom =>
      let updatedChatroom := Chatroom.with_pinnedVideoId chatroom (Some messageId) in
      Ok (set_chatrooms s (<[chatroomId := updatedChatroom]> (chatrooms s)))
  end.

Definition unpinVideo (chatroomId : nat) (s : State) : result State :=
  match chatrooms s !! chatroomId with
  | None => Trap "Chatroom does not exist"
  | Some chatroom =>
      let updatedChatroom := Chatroom.with_pinnedVideoId chatroom None in
      Ok (set_chatrooms s (<[chatroomId := updatedChatroom]> (chatrooms s)))
  end.

Definition getPinnedVideo (chatroomId : nat) (s : State) : option nat :=
  match chatrooms s !! chatroomId with
  | None => None
  | Some chatroom => Chatroom.pinnedVideoId chatroom
  end.

Definition saveCallerUserProfile (caller : Principal) (profile : UserProfile.t)
    (s : State) : State :=
  set_userProfiles s (<[caller := profile]> (userProfiles s)).

(** ** Retroactive rewrites

    Both functions run the same loop: starting from [updatedMessages =
    messages], every entry [(chatroomId, chatroomMessages)] of [messages] is
    written back patched.  [natMap.entries] enumerates the keys in ascending
    order; the loop is stated over any enumeration and shown below not to
    depend on its order. *)
Definition patchLoop {V : Type} (patch : list V → list V)
    (entries : list (nat * list V)) (updated : gmap nat (list V))
    : gmap nat (list V) :=
  fold_left (λ acc kv, <[kv.1 := patch kv.2]> acc) entries updated.

Definition renameSender (senderId newUsername : string) (message : Message.t)
    : Message.t :=
  if bool_decide (Message.senderId message = senderId)
  then Message.with_sender message newUsername
  else message.

Definition updateUsernameRetroactively (senderId newUsername : string)
    (s : State) : State :=
  let updatedMessages :=
    patchLoop (List.map (renameSender senderId newUsername))
              (map_to_list (messages s)) (messages s) in
  set_messages s updatedMessages.

Definition reavatarSender (senderId : string) (newAvatarUrl : option string)
    (message : Message.t) : Message.t :=
  if bool_decide (Message.senderId message = senderId)
  then Message.with_avatarUrl message newAvatarUrl
  else message.

Definition updateAvatarRetroactively (senderId : string)
    (newAvatarUrl : option string) (s : State) : State :=
  let updatedMessages :=
    patchLoop (List.map (reavatarSender senderId newAvatarUrl))
              (map_to_list (messages s)) (messages s) in
  set_messages s updatedMessages.

(** [hasPermission] is the answer of
    [AccessControl.hasPermission (accessControlState, caller, #admin)]. *)
Definition cleanupInactiveUsers (hasPermission : bool) (now : Z) (s : State)
    : result State :=
  if negb hasPermission then
    Trap "Unauthorized: Only admins can perform cleanup operations"
  else
    let currentTime := now in
    let updatedActiveUsers :=
      patchLoop (List.filter (withinThreshold currentTime))
                (map_to_list (activeUsers s)) (activeUsers s) in
    Ok (set_activeUsers s updatedActiveUsers).

(** ** Reactions *)

(** The combining function of the fold in [addReaction]. *)
Definition addReaction_combine (emoji userId : string)
    (st : list Reaction.t * bool) (reaction : Reaction.t)
    : list Reaction.t * bool :=
  let '(acc, found) := st in
  if bool_decide (Reaction.emoji reaction = emoji) then
    let hasReacted :=
      some (Reaction.users reaction) (λ user, bool_decide (user = userId)) in
    if negb hasReacted then
      let updatedReaction :=
        {| Reaction.emoji := Reaction.emoji reaction;
           Reaction.count := Reaction.count reaction + 1;
           Reaction.users := userId :: Reaction.users reaction |} in
      (updatedReaction :: acc, true)
    else (reaction :: acc, true)
  else (reaction :: acc, found).

Definition addReaction (messageId : nat) (emoji userId : string) (s : State)
    : State :=
  let messageReactions := getOrNil (reactions s) messageId in
  let '(updatedReactions, found) :=
    foldLeft messageReactions ([], false) (addReaction_combine emoji userId) in
  if negb found then
    let newReaction :=
      {| Reaction.emoji := emoji;
         Reaction.count := 1;
         Reaction.users := userId :: [] |} in
    set_reactions s (<[messageId := newReaction :: messageReactions]> (reactions s))
  else
    set_reactions s (<[messageId := rev updatedReactions]> (reactions s)).

(** The function mapped over the reactions by [removeReaction]. *)
Definition removeReaction_patch (emoji userId : string) (reaction : Reaction.t)
    : Reaction.t :=
  if bool_decide (Reaction.emoji reaction = emoji) then
    {| Reaction.emoji := Reaction.emoji reaction;
       Reaction.count :=
         if 0 <? Reaction.count reaction then Reaction.count reaction - 1 else 0;
       Reaction.users :=
         List.filter (λ user, negb (bool_decide (user = userId)))
                     (Reaction.users reaction) |}
  else reaction.

Definition removeReaction (messageId : nat) (emoji userId : string) (s : State)
    : State :=
  let messageReactions := getOrNil (reactions s) messageId in
  let updatedReactions :=
    List.map (removeReaction_patch emoji userId) messageReactions in
  set_reactions s (<[messageId := updatedReactions]> (reactions s)).

Definition getReactions (messageId : nat) (s : State) : list Reaction.t :=
  match reactions s !! messageId with
  | None => []
  | Some messageReactions => messageReactions
  end.

(** ** Threads *)

(** The predicate filtered on by [getReplies]. *)
Definition isReplyTo (parentMessageId : nat) (msg : Message.t) : bool :=
  match Message.replyToMessageId msg with
  | None => false
  | Some replyId => bool_decide (replyId = parentMessageId)
  end.

Definition getReplies (chatroomId parentMessageId : nat) (s : State)
    : list Message.t :=
  match messages s !! chatroomId with
  | None => []
  | Some chatroomMessages =>
      let replies := List.filter (isReplyTo parentMessageId) chatroomMessages in
      let reversedReplies := rev replies in
      reversedReplies
  end.

(** ** The actor as a state machine

    One constructor per public update function on the tables above.  The
    calls that only set up the imported access-control module keep their
    state inside that module and are left out. *)
Inductive Op : Type :=
| CreateChatroom (topic description mediaUrl mediaType category : string)
| SendMessage (content sender : string) (chatroomId : nat)
    (mediaUrl mediaType avatarUrl : option string) (senderId : string)
    (replyToMessageId : option nat)
| IncrementViewCount (chatroomId : nat) (userId : string)
| PinVideo (chatroomId messageId : nat)
| UnpinVideo (chatroomId : nat)
| SaveCallerUserProfile (caller : Principal) (profile : UserProfile.t)
| UpdateUsernameRetroactively (senderId newUsername : string)
| UpdateAvatarRetroactively (senderId : string) (newAvatarUrl : option string)
| CleanupInactiveUsers (hasPermission : bool)
| AddReaction (messageId : nat) (emoji userId : string)
| RemoveReaction (messageId : nat) (emoji userId : string).

(** What a call hands out: the room id returned by [createChatroom] and the
    message record that the call built and stored. *)
Record Assigned := mkAssigned {
  roomId : option nat;
  stored : option Message.t;
}.

Definition nothing : Assigned := mkAssigned None None.

(** One call at clock reading [now]. *)
Definition step (now : Z) (o : Op) (s : State) : result (State * Assigned) :=
  match o with
  | CreateChatroom topic description mediaUrl mediaType category =>
      match createChatroom topic description mediaUrl mediaType category now s with
      | Ok (s', id) =>
          Ok (s', mkAssigned (Some id)
                    (Some (createChatroom_firstMessage s now mediaUrl mediaType)))
      | Trap msg => Trap msg
      end
  | SendMessage content sender chatroomId mediaUrl mediaType avatarUrl senderId
                replyToMessageId =>
      match sendMessage content sender chatroomId mediaUrl mediaType avatarUrl
                        senderId replyToMessageId now s with
      | Ok s' =>
          Ok (s', mkAssigned None
                    (Some (sendMessage_message s now content sender chatroomId
                             mediaUrl mediaType avatarUrl senderId replyToMessageId)))
      | Trap msg => Trap msg
      end
  | IncrementViewCount chatroomId userId =>
      match incrementViewCount chatroomId userId now s with
      | Ok s' => Ok (s', nothing)
      | Trap msg => Trap msg
      end
  | PinVideo chatroomId messageId =>
      match pinVideo chatroomId messageId s with
      | Ok s' => Ok (s', nothing)
      | Trap msg => Trap msg
      end
  | UnpinVideo chatroomId =>
      match unpinVideo chatroomId s with
      | Ok s' => Ok (s', nothing)
      | Trap msg => Trap msg
      end
  | SaveCallerUserProfile caller profile =>
      Ok (saveCallerUserProfile caller profile s, nothing)
  | UpdateUsernameRetroactively senderId newUsername =>
      Ok (updateUsernameRetroactively senderId newUsername s, nothing)
  | UpdateAvatarRetroactively senderId newAvatarUrl =>
      Ok (updateAvatarRetroactively senderId newAvatarUrl s, nothing)
  | CleanupInactiveUsers hasPermission =>
      match cleanupInactiveUsers hasPermission now s with
      | Ok s' => Ok (s', nothing)
      | Trap msg => Trap msg
      end
  | AddReaction messageId emoji userId =>
      Ok (addReaction messageId emoji userId s, nothing)
  | RemoveReaction messageId emoji userId =>
      Ok (removeReaction messageId emoji userId s, nothing)
  end.

(** The state a call leaves behind: a trap rolls the call back. *)
Definition commit (now : Z) (o : Op) (s : State) : State :=
  match step now o s with
  | Ok (s', _) => s'
  | Trap _ => s
  end.

(** A history is a list of calls, each with its clock reading. *)
Definition Call : Type := Z * Op.

Fixpoint run (calls : list Call) (s : State) : State :=
  match calls with
  | [] => s
  | (now, o) :: rest => run rest (commit now o s)
  end.

(** The ids handed out along a history, in call order. *)
Fixpoint assignedRoomIds (calls : list Call) (s : State) : list nat :=
  match calls with
  | [] => []
  | (now, o) :: rest =>
      match step now o s with
      | Ok (s', a) =>
          match roomId a with
          | Some id => id :: assignedRoomIds rest s'
          | None => assignedRoomIds rest s'
          end
      | Trap _ => assignedRoomIds rest s
      end
  end.

Fixpoint assignedMessageIds (calls : list Call) (s : State) : list nat :=
  match calls with
  | [] => []
  | (now, o) :: rest =>
      match step now o s with
      | Ok (s', a) =>
          match stored a with
          | Some m => Message.id m :: assignedMessageIds rest s'
          | None => assignedMessageIds rest s'
          end
      | Trap _ => assignedMessageIds rest s
      end
  end.

(** What [addReaction] does to one stored record. *)
Definition addReaction_bump (emoji userId : string) (reaction : Reaction.t)
    : Reaction.t :=
  if bool_decide (Reaction.emoji reaction = emoji) then
    if negb (some (Reaction.users reaction) (λ user, bool_decide (user = userId)))
    then {| Reaction.emoji := Reaction.emoji reaction;
            Reaction.count := Reaction.count reaction + 1;
            Reaction.users := userId :: Reaction.users reaction |}
    else reaction
  else reaction.

Definition hasEmoji (emoji : string) (reaction : Reaction.t) : bool :=
  bool_decide (Reaction.emoji reaction = emoji).

(** ** Well-formed states

    What the rooms and the message table of every reachable state satisfy:
    a message stored under a room carries that room's id and an id below
    the message counter; each room's list is newest first; a room carries
    its own key, below the room counter, and its [messageCount] is the
    length of its list. *)
Definition newer (a b : nat) : Prop := b < a.

Definition wfMessages (nextId : nat) (msgs : gmap nat (list Message.t)) : Prop :=
  ∀ room l, msgs !! room = Some l →
    Forall (λ m, Message.chatroomId m = room ∧ Message.id m < nextId) l
    ∧ StronglySorted newer (List.map Message.id l).

Definition wfChatrooms (nextRoom : nat) (rooms : gmap nat Chatroom.t)
    (msgs : gmap nat (list Message.t)) : Prop :=
  ∀ room c, rooms !! room = Some c →
    Chatroom.id c = room ∧ room < nextRoom
    ∧ ∃ l, msgs !! room = Some l ∧ length l = Chatroom.messageCount c.

Definition wf (s : State) : Prop :=
  wfMessages (nextMessageId s) (messages s)
  ∧ wfChatrooms (nextChatroomId s) (chatrooms s) (messages s).

(** ** Reading the reaction table

    The [{emoji, count}] view of a message's reactions. *)
Definition reactionSnapshot (messageId : nat) (s : State) : list (string * nat) :=
  List.map (λ r, (Reaction.emoji r, Reaction.count r)) (getReactions messageId s).

(** The result for [messageId] holds nothing beyond that view: states that
    agree on the view give the same result. *)
Definition exposesOnlyEmojiAndCount (messageId : nat) (s1 s2 : State) : Prop :=
  reactionSnapshot messageId s1 = reactionSnapshot messageId s2 →
  getReactions messageId s1 = getReactions messageId s2.

(** A record's stored count is the number of its identities. *)
Definition countMatchesUsers (r : Reaction.t) : Prop :=
  Reaction.count r = length (Reaction.users r).

(** The room is reported live exactly when the presence record [u] is
    within 60 s of [now]. *)
Definition liveExactlyWhenWithin (s : State) (id : nat) (now : Z)
    (u : ActiveUser.t) : Prop :=
  ∀ view, getChatroom id now s = Some view →
    (ChatroomWithLiveStatus.isLive view = true
     ↔ (Z.abs (now - ActiveUser.lastActive u) ≤ 60 * 1000000000)%Z).

(** ** Sample histories *)

Definition movieNight : Op :=
  CreateChatroom "Movie Night" "What to watch" "https://youtu.be/x" "youtube" "film".

(** One room; [u1] writes at time 0, [u2] looks in 100 s later. *)
Definition twoVisitors : list Call :=
  [(0%Z, movieNight);
   (0%Z, SendMessage "hi" "Alice" 0 None None None "u1" None);
   (100000000000%Z, IncrementViewCount 0 "u2")].

Definition movieNightRoom : Chatroom.t :=
  {| Chatroom.id := 0;
     Chatroom.topic := "Movie Night";
     Chatroom.description := "What to watch";
     Chatroom.mediaUrl := "https://youtu.be/x";
     Chatroom.mediaType := "youtube";
     Chatroom.createdAt := 0;
     Chatroom.messageCount := 2;
     Chatroom.viewCount := 1;
     Chatroom.pinnedVideoId := None;
     Chatroom.category := "film" |}.

(** [u1] reacts, then takes the reaction back. *)
Definition reactAndRetract : list Call :=
  [(0%Z, AddReaction 0 "fire" "u1"); (1%Z, RemoveReaction 0 "fire" "u1")].

(** [u1] reacts, then [u2], who never reacted, asks for removal. *)
Definition retractByStranger : list Call :=
  [(0%Z, AddReaction 0 "fire" "u1"); (1%Z, RemoveReaction 0 "fire" "u2")].

(** ** The remaining queries of the actor *)

(** [natMap.entries] and [natMap.vals] walk a map in ascending key order. *)
Definition keyLe {V : Type} (a b : nat * V) : Prop := a.1 ≤ b.1.

#[global] Instance keyLe_dec {V : Type} : RelDecision (@keyLe V).
Proof. intros a b. unfold keyLe. apply _. Defined.

Definition entries {V : Type} (m : gmap nat V) : list (nat * V) :=
  merge_sort keyLe (map_to_list m).

Definition vals {V : Type} (m : gmap nat V) : list V := (entries m).*2.

Definition getChatrooms (now : Z) (s : State) : list ChatroomWithLiveStatus.t :=
  if size (chatrooms s) =? 0 then []
  else
    let currentTime := now in
    List.map (λ chatroom, withLiveStatus s currentTime (Chatroom.id chatroom) chatroom)
             (vals (chatrooms s)).

(** [Text.toLowercase] folds the case of every Unicode letter.  The two
    queries that fold room texts are stated for the folding as the
    parameter [toLowercase]. *)
Section search.
Variable toLowercase : string → string.




End search.

Module MessageWithReactions.
Record t := mk {
  id : nat;
  content : string;
  timestamp : Z;
  sender : string;
  chatroomId : nat;
  mediaUrl : option string;
  mediaType : option string;
  avatarUrl : option string;
  senderId : string;
  reactions : list Reaction.t;
  replyToMessageId : option nat;
}.

(** [{ message with reactions = v }] *)
Definition of_message (m : Message.t) (v : list Reaction.t) : t :=
  mk (Message.id m) (Message.content m) (Message.timestamp m) (Message.sender m)
     (Message.chatroomId m) (Message.mediaUrl m) (Message.mediaType m)
     (Message.avatarUrl m) (Message.senderId m) v (Message.replyToMessageId m).

(** The message a view was made from. *)
Definition to_message (w : t) : Message.t :=
  Message.mk (id w) (content w) (timestamp w) (sender w) (chatroomId w)
     (mediaUrl w) (mediaType w) (avatarUrl w) (senderId w) (replyToMessageId w).

(** [{ ...msg, reactions: v }] *)
Definition with_reactions (w : t) (v : list Reaction.t) : t :=
  mk (id w) (content w) (timestamp w) (sender w) (chatroomId w) (mediaUrl w)
     (mediaType w) (avatarUrl w) (senderId w) v (replyToMessageId w).
End MessageWithReactions.

Definition getMessageWithReactionsAndReplies (chatroomId : nat) (s : State)
    : list MessageWithReactions.t :=
  match messages s !! chatroomId with
  | None => []
  | Some chatroomMessages =>
      let reversedMessages := rev chatroomMessages in
      let messagesWithReactions :=
        List.map
          (λ message,
             let messageReactions := getOrNil (reactions s) (Message.id message) in
             MessageWithReactions.of_message message messageReactions)
          reversedMessages in
      messagesWithReactions
  end.

Module ReplyPreview.
Record t := mk {
  messageId : nat;
  sender : string;
  contentSnippet : string;
  mediaThumbnail : option string;
}.
End ReplyPreview.

(** [Array.tabulate (n, f)] *)
Definition tabulate {T : Type} (n : nat) (f : nat → T) : list T :=
  List.map f (seq 0 n).

(** [chars[i]] is only evaluated for [i] below [chars.size ()]; the default
    stands for the trap of an index out of bounds. *)
Definition truncateText (text : string) (maxLength : nat) : string :=
  let chars := Text.toArray text in
  let length :=
    if maxLength <? List.length chars then maxLength else List.length chars in
  Text.fromArray (tabulate length (λ i, nth i chars EmptyString)).

(** The shape of the entries of [Text.toArray]: one byte, then continuation
    bytes only. *)
Fixpoint allContinuation (w : string) : bool :=
  match w with
  | EmptyString => true
  | String c w' => Text.isContinuation c && allContinuation w'
  end.

Definition isChar (ch : string) : Prop :=
  ∃ c w, ch = String c w ∧ allContinuation w = true.

Definition getReplyPreview (chatroomId messageId : nat) (s : State)
    : option ReplyPreview.t :=
  match messages s !! chatroomId with
  | None => None
  | Some chatroomMessages =>
      let message :=
        List.find (λ msg, bool_decide (Message.id msg = messageId)) chatroomMessages in
      match message with
      | None => None
      | Some msg =>
          let contentSnippet :=
            if 100 <? Text.size (Message.content msg)
            then truncateText (Message.content msg) 100
            else Message.content msg in
          Some {| ReplyPreview.messageId := messageId;
                  ReplyPreview.sender := Message.sender msg;
                  ReplyPreview.contentSnippet := contentSnippet;
                  ReplyPreview.mediaThumbnail := Message.mediaUrl msg |}
      end
  end.

Definition getCallerUserProfile (caller : Principal) (s : State)
    : option UserProfile.t :=
  userProfiles s !! caller.

Definition getUserProfile (user : Principal) (s : State) : option UserProfile.t :=
  userProfiles s !! user.

(** ** The client's optimistic cache updates

    [src/frontend/src/hooks/useQueries.ts]: before the call to the actor
    returns, [useAddReaction] and [useRemoveReaction] rewrite the cached
    result of [getMessageWithReactionsAndReplies].  [listToArray] and the
    loop that rebuilds the list are inverse conversions between the two
    encodings of a list, which the embedding does not distinguish. *)

(** The new [updatedReactions] of [useAddReaction]. *)
Definition optimisticAddReactions (reactions : list Reaction.t)
    (emoji userId : string) : list Reaction.t :=
  let existingReaction :=
    List.find (λ r, bool_decide (Reaction.emoji r = emoji)) reactions in
  match existingReaction with
  | Some existing =>
      let users := Reaction.users existing in
      if negb (existsb (λ u, bool_decide (u = userId)) users) then
        List.map
          (λ r, if bool_decide (Reaction.emoji r = emoji)
                then {| Reaction.emoji := Reaction.emoji r;
                        Reaction.count := Reaction.count r + 1;
                        Reaction.users := userId :: Reaction.users r |}
                else r)
          reactions
      else reactions
  | None =>
      (reactions ++ [{| Reaction.emoji := emoji; Reaction.count := 1;
                        Reaction.users := [userId] |}])%list
  end.

Definition optimisticAdd (old : list MessageWithReactions.t) (messageId : nat)
    (emoji userId : string) : list MessageWithReactions.t :=
  List.map
    (λ msg,
       if bool_decide (MessageWithReactions.id msg = messageId) then
         MessageWithReactions.with_reactions msg
           (optimisticAddReactions (MessageWithReactions.reactions msg) emoji userId)
       else msg)
    old.

(** The new [updatedReactions] of [useRemoveReaction]. *)
Definition optimisticRemoveReactions (reactions : list Reaction.t)
    (emoji userId : string) : list Reaction.t :=
  List.filter (λ r, 0 <? Reaction.count r)
    (List.map
       (λ r, if bool_decide (Reaction.emoji r = emoji) then
               let users := Reaction.users r in
               let filteredUsers :=
                 List.filter (λ u, negb (bool_decide (u = userId))) users in
               {| Reaction.emoji := Reaction.emoji r;
                  Reaction.count :=
                    if 0 <? Reaction.count r then Reaction.count r - 1 else 0;
                  Reaction.users := filteredUsers |}
             else r)
       reactions).

Definition optimisticRemove (old : list MessageWithReactions.t) (messageId : nat)
    (emoji userId : string) : list MessageWithReactions.t :=
  List.map
    (λ msg,
       if bool_decide (MessageWithReactions.id msg = messageId) then
         MessageWithReactions.with_reactions msg
           (optimisticRemoveReactions (MessageWithReactions.reactions msg) emoji userId)
       else msg)
    old.

(** ** More of what reachable states satisfy *)

(** What [createChatroom] checks before it stores a room. *)
Definition roomValid (c : Chatroom.t) : Prop :=
  Chatroom.topic c ≠ "" ∧ Chatroom.description c ≠ ""
  ∧ Chatroom.mediaUrl c ≠ "" ∧ Chatroom.category c ≠ ""
  ∧ validateMediaUrl (Chatroom.mediaUrl c) (Chatroom.mediaType c) = true.

(** The seed message, up to the sender name and avatar that the
    retroactive rewrites may change. *)
Definition isSeed (room : nat) (m : Message.t) : Prop :=
  Message.senderId m = "creator"
  ∧ Message.content m = "Media content posted by creator"
  ∧ Message.chatroomId m = room
  ∧ Message.replyToMessageId m = None.

Definition reactionOk (r : Reaction.t) : Prop :=
  NoDup (Reaction.users r) ∧ Reaction.count r ≤ length (Reaction.users r).

(** The fields of a message that no function assigns after the message is
    stored: all but [sender] and [avatarUrl]. *)
Definition fixedPart (m : Message.t)
    : nat * string * Z * nat * option string * option string * string * option nat :=
  (Message.id m, Message.content m, Message.timestamp m, Message.chatroomId m,
   Message.mediaUrl m, Message.mediaType m, Message.senderId m,
   Message.replyToMessageId m).

(** The fields of a room that no function assigns after the room is
    stored: all but the two counters and the pin. *)
Definition fixedRoomPart (c : Chatroom.t)
    : nat * string * string * string * string * Z * string :=
  (Chatroom.id c, Chatroom.topic c, Chatroom.description c, Chatroom.mediaUrl c,
   Chatroom.mediaType c, Chatroom.createdAt c, Chatroom.category c).

(** What later calls keep of a room. *)
Definition roomKept (c c' : Chatroom.t) : Prop :=
  fixedRoomPart c' = fixedRoomPart c
  ∧ Chatroom.messageCount c ≤ Chatroom.messageCount c'
  ∧ Chatroom.viewCount c ≤ Chatroom.viewCount c'.

Definition idsUnique (msgs : gmap nat (list Message.t)) : Prop :=
  ∀ r1 l1 m1 r2 l2 m2,
    msgs !! r1 = Some l1 → m1 ∈ l1 → msgs !! r2 = Some l2 → m2 ∈ l2 →
    Message.id m1 = Message.id m2 → m1 = m2.

Definition seedFirst (msgs : gmap nat (list Message.t)) : Prop :=
  ∀ i l, msgs !! i = Some l → ∃ m, last l = Some m ∧ isSeed i m.

Record inv (s : State) : Prop := mkInv {
  inv_rooms_dense :
    ∀ i, is_Some (chatrooms s !! i) ↔ i < nextChatroomId s;
  inv_messages_dom :
    ∀ i, is_Some (messages s !! i) ↔ is_Some (chatrooms s !! i);
  inv_presence_dom :
    ∀ i, is_Some (activeUsers s !! i) → is_Some (chatrooms s !! i);
  inv_presence_nodup :
    ∀ i l, activeUsers s !! i = Some l → NoDup (List.map ActiveUser.userId l);
  inv_reactions :
    ∀ m l, reactions s !! m = Some l →
      NoDup (List.map Reaction.emoji l) ∧ Forall reactionOk l;
  inv_ids_unique : idsUnique (messages s);
  inv_room_valid :
    ∀ i c, chatrooms s !! i = Some c → roomValid c;
  inv_seed : seedFirst (messages s);
}.

(** * Properties *)

(** ** Basic facts about the base-library functions *)

Lemma Text_size_zero (t : string) : (Text.size t =? 0) = true ↔ t = "".
Proof.
  unfold Text.size. destruct t as [|c t]; simpl; [done|].
  split; [|done]. destruct (Text.continues t); [|done].
  by destruct (Text.toArray t).
Qed.

Lemma Text_size_nonzero (t : string) : (Text.size t =? 0) = false ↔ t ≠ "".
Proof.
  rewrite <- Text_size_zero. destruct (Text.size t =? 0); split; congruence.
Qed.

Lemma getOrNil_insert_eq {V : Type} (m : gmap nat (list V)) k l :
  getOrNil (<[k := l]> m) k = l.
Proof. unfold getOrNil. by rewrite lookup_insert_eq. Qed.

Lemma getOrNil_insert_ne {V : Type} (m : gmap nat (list V)) k k' l :
  k ≠ k' → getOrNil (<[k := l]> m) k' = getOrNil m k'.
Proof. intros Hne. unfold getOrNil. by rewrite lookup_insert_ne. Qed.

(** ** The write-back loop *)

Section patch_loop.
Context {V : Type} (patch : list V → list V).

Lemma patchLoop_cons kv entries (acc : gmap nat (list V)) :
  patchLoop patch (kv :: entries) acc
  = patchLoop patch entries (<[kv.1 := patch kv.2]> acc).
Proof. reflexivity. Qed.

Lemma patchLoop_lookup_other entries (acc : gmap nat (list V)) k :
  k ∉ entries.*1 → patchLoop patch entries acc !! k = acc !! k.
Proof.
  revert acc. induction entries as [|[k' v'] entries IH]; intros acc Hk.
  - reflexivity.
  - rewrite patchLoop_cons. simpl in *.
    apply not_elem_of_cons in Hk as [Hne Hk].
    rewrite IH by assumption. by rewrite lookup_insert_ne.
Qed.

Lemma patchLoop_lookup_entry entries (acc : gmap nat (list V)) k v :
  NoDup entries.*1 → (k, v) ∈ entries →
  patchLoop patch entries acc !! k = Some (patch v).
Proof.
  revert acc. induction entries as [|[k' v'] entries IH]; intros acc Hnd Hin.
  - by apply elem_of_nil in Hin.
  - rewrite patchLoop_cons. simpl in *.
    apply NoDup_cons in Hnd as [Hfresh Hnd].
    apply elem_of_cons in Hin as [Heq | Hin].
    + inversion Heq; subst k' v'.
      rewrite patchLoop_lookup_other by assumption.
      by rewrite lookup_insert_eq.
    + by apply IH.
Qed.

(** Whatever the order of enumeration, the loop patches every entry. *)
Lemma patchLoop_any_order (m : gmap nat (list V)) entries :
  entries ≡ₚ map_to_list m → patchLoop patch entries m = patch <$> m.
Proof.
  intros Hperm. apply map_eq. intros k. rewrite lookup_fmap.
  destruct (m !! k) as [v|] eqn:Hk; simpl.
  - apply patchLoop_lookup_entry.
    + rewrite Hperm. apply NoDup_fst_map_to_list.
    + rewrite Hperm. by apply elem_of_map_to_list.
  - rewrite patchLoop_lookup_other; [done|].
    rewrite Hperm. intros Hin.
    apply list_elem_of_fmap in Hin as ([k' v] & -> & Hin).
    apply elem_of_map_to_list in Hin. simpl in Hk. congruence.
Qed.

Lemma patchLoop_entries (m : gmap nat (list V)) :
  patchLoop patch (map_to_list m) m = patch <$> m.
Proof. by apply patchLoop_any_order. Qed.
End patch_loop.

Lemma updateUsernameRetroactively_messages senderId newUsername s :
  messages (updateUsernameRetroactively senderId newUsername s)
  = List.map (renameSender senderId newUsername) <$> messages s.
Proof. unfold updateUsernameRetroactively. simpl. apply patchLoop_entries. Qed.

Lemma updateAvatarRetroactively_messages senderId newAvatarUrl s :
  messages (updateAvatarRetroactively senderId newAvatarUrl s)
  = List.map (reavatarSender senderId newAvatarUrl) <$> messages s.
Proof. unfold updateAvatarRetroactively. simpl. apply patchLoop_entries. Qed.

(** ** Sending a message *)

Lemma sendMessage_trap_iff content sender chatroomId mediaUrl mediaType avatarUrl
    senderId replyToMessageId now s :
  (∃ msg, sendMessage content sender chatroomId mediaUrl mediaType avatarUrl
            senderId replyToMessageId now s = Trap msg)
  ↔ content = "" ∨ chatrooms s !! chatroomId = None.
Proof.
  unfold sendMessage.
  destruct (Text.size content =? 0) eqn:Hsz.
  - apply Text_size_zero in Hsz. split; [by left | eauto].
  - apply Text_size_nonzero in Hsz.
    destruct (chatrooms s !! chatroomId) as [c|] eqn:Hc.
    + split; [intros [msg Hmsg]; discriminate | intros [?|?]; congruence].
    + split; [by right | eauto].
Qed.

Lemma sendMessage_ok_inv content sender chatroomId mediaUrl mediaType avatarUrl
    senderId replyToMessageId now s s' :
  sendMessage content sender chatroomId mediaUrl mediaType avatarUrl
    senderId replyToMessageId now s = Ok s' →
  ∃ chatroom,
    content ≠ "" ∧ chatrooms s !! chatroomId = Some chatroom ∧
    s' = mkState (nextMessageId s + 1) (nextChatroomId s)
           (<[chatroomId :=
                Chatroom.with_messageCount chatroom (Chatroom.messageCount chatroom + 1)]>
              (chatrooms s))
           (<[chatroomId :=
                sendMessage_message s now content sender chatroomId mediaUrl
                  mediaType avatarUrl senderId replyToMessageId
                :: getOrNil (messages s) chatroomId]> (messages s))
           (<[chatroomId := touch (getOrNil (activeUsers s) chatroomId) senderId now]>
              (activeUsers s))
           (reactions s) (userProfiles s).
Proof.
  unfold sendMessage.
  destruct (Text.size content =? 0) eqn:Hsz; [discriminate|].
  apply Text_size_nonzero in Hsz.
  destruct (chatrooms s !! chatroomId) as [c|] eqn:Hc; [|discriminate].
  intros [= <-]. exists c. split_and!; done.
Qed.

Lemma getMessages_getOrNil chatroomId s :
  getMessages chatroomId s = rev (getOrNil (messages s) chatroomId).
Proof. unfold getMessages, getOrNil. by destruct (messages s !! chatroomId). Qed.

(** C4.  [sendMessage] traps exactly when the content is empty or the room
    does not exist (with the message for the empty content when both
    hold); a trapped call leaves the state as it was.  A call that returns
    has put at the end of the room's chronological log one message with
    the current message counter as id, the time of the call as timestamp
    and the given content, sender, room, media, avatar, identity and
    reply target; it has raised the room's [messageCount] by exactly one,
    every other field of the room kept; it has advanced the message
    counter by one; and it has replaced the sender's presence record in
    that room by one stamped with the time of the call.  Other rooms, the
    room counter and the reactions are as before. *)
Theorem sendMessage_fails_iff_and_effects content sender chatroomId mediaUrl
    mediaType avatarUrl senderId replyToMessageId now s :
  let call := SendMessage content sender chatroomId mediaUrl mediaType avatarUrl
                senderId replyToMessageId in
  let outcome := sendMessage content sender chatroomId mediaUrl mediaType
                   avatarUrl senderId replyToMessageId now s in
  ((∃ msg, outcome = Trap msg) ↔ content = "" ∨ chatrooms s !! chatroomId = None)
  ∧ (content = "" → outcome = Trap "Message content cannot be empty")
  ∧ (content ≠ "" → chatrooms s !! chatroomId = None →
       outcome = Trap "Chatroom does not exist")
  ∧ (∀ msg, outcome = Trap msg → commit now call s = s)
  ∧ (∀ s', outcome = Ok s' →
       commit now call s = s'
       ∧ getMessages chatroomId s'
         = (getMessages chatroomId s
            ++ [Message.mk (nextMessageId s) content now sender chatroomId
                  mediaUrl mediaType avatarUrl senderId replyToMessageId])%list
       ∧ length (getMessages chatroomId s') = length (getMessages chatroomId s) + 1
       ∧ (∃ chatroom,
            chatrooms s !! chatroomId = Some chatroom
            ∧ chatrooms s' !! chatroomId
              = Some (Chatroom.mk (Chatroom.id chatroom) (Chatroom.topic chatroom)
                        (Chatroom.description chatroom) (Chatroom.mediaUrl chatroom)
                        (Chatroom.mediaType chatroom) (Chatroom.createdAt chatroom)
                        (Chatroom.messageCount chatroom + 1)
                        (Chatroom.viewCount chatroom)
                        (Chatroom.pinnedVideoId chatroom)
                        (Chatroom.category chatroom)))
       ∧ activeUsers s' !! chatroomId
         = Some ({| ActiveUser.userId := senderId; ActiveUser.lastActive := now |}
                   :: List.filter
                        (λ user, negb (bool_decide (ActiveUser.userId user = senderId)))
                        (getOrNil (activeUsers s) chatroomId))
       ∧ nextMessageId s' = nextMessageId s + 1
       ∧ nextChatroomId s' = nextChatroomId s
       ∧ reactions s' = reactions s
       ∧ (∀ other, other ≠ chatroomId →
            getMessages other s' = getMessages other s
            ∧ chatrooms s' !! other = chatrooms s !! other
            ∧ activeUsers s' !! other = activeUsers s !! other)).
Proof.
  intros call outcome. split_and!.
  - apply sendMessage_trap_iff.
  - intros ->. reflexivity.
  - intros Hne Hnone. unfold outcome, sendMessage.
    apply Text_size_nonzero in Hne. by rewrite Hne, Hnone.
  - intros msg Hout. unfold commit, call. simpl. fold outcome. by rewrite Hout.
  - intros s' Hout.
    assert (Hcommit : commit now call s = s').
    { unfold commit, call. simpl. fold outcome. by rewrite Hout. }
    apply sendMessage_ok_inv in Hout as (chatroom & Hne & Hroom & ->).
    split_and!; simpl.
    + done.
    + rewrite !getMessages_getOrNil. simpl. by rewrite getOrNil_insert_eq.
    + rewrite !getMessages_getOrNil. simpl. rewrite getOrNil_insert_eq.
      simpl. rewrite length_app. simpl. done.
    + exists chatroom. by rewrite lookup_insert_eq.
    + by rewrite lookup_insert_eq.
    + done.
    + done.
    + done.
    + intros other Hother. rewrite !getMessages_getOrNil. simpl.
      rewrite getOrNil_insert_ne by done.
      by rewrite !lookup_insert_ne.
Qed.

(** ** Reactions *)

Lemma addReaction_fold emoji userId l acc found :
  foldLeft l (acc, found) (addReaction_combine emoji userId)
  = (rev (List.map (addReaction_bump emoji userId) l) ++ acc,
     found || existsb (hasEmoji emoji) l)%list.
Proof.
  unfold foldLeft. revert acc found.
  induction l as [|r l IH]; intros acc found; simpl.
  - by rewrite orb_false_r.
  - rewrite <- app_assoc. simpl.
    unfold addReaction_bump, hasEmoji.
    destruct (bool_decide (Reaction.emoji r = emoji)); simpl.
    + destruct (some (Reaction.users r) _); simpl;
        rewrite IH; by rewrite orb_true_r.
    + by rewrite IH.
Qed.

(** [addReaction] without the accumulator. *)
Lemma addReaction_unfold messageId emoji userId s :
  addReaction messageId emoji userId s
  = let messageReactions := getOrNil (reactions s) messageId in
    set_reactions s
      (<[messageId :=
           if existsb (hasEmoji emoji) messageReactions
           then List.map (addReaction_bump emoji userId) messageReactions
           else {| Reaction.emoji := emoji; Reaction.count := 1;
                   Reaction.users := [userId] |} :: messageReactions]>
         (reactions s)).
Proof.
  unfold addReaction. rewrite addReaction_fold. simpl.
  rewrite app_nil_r, rev_involutive.
  by destruct (existsb (hasEmoji emoji) (getOrNil (reactions s) messageId)).
Qed.

Lemma some_self (userId : string) users :
  some (userId :: users) (λ user, bool_decide (user = userId)) = true.
Proof. unfold some. simpl. by rewrite bool_decide_eq_true_2. Qed.

Lemma addReaction_bump_idem emoji userId r :
  addReaction_bump emoji userId (addReaction_bump emoji userId r)
  = addReaction_bump emoji userId r.
Proof.
  destruct (bool_decide (Reaction.emoji r = emoji)) eqn:He.
  - destruct (some (Reaction.users r) (λ user, bool_decide (user = userId))) eqn:Hs.
    + assert (Hr : addReaction_bump emoji userId r = r).
      { unfold addReaction_bump. by rewrite He, Hs. }
      by rewrite !Hr.
    + assert (Hr : addReaction_bump emoji userId r
                   = {| Reaction.emoji := Reaction.emoji r;
                        Reaction.count := Reaction.count r + 1;
                        Reaction.users := userId :: Reaction.users r |}).
      { unfold addReaction_bump. by rewrite He, Hs. }
      rewrite !Hr. unfold addReaction_bump.
      cbn [Reaction.emoji Reaction.users]. by rewrite He, some_self.
  - assert (Hr : addReaction_bump emoji userId r = r).
    { unfold addReaction_bump. by rewrite He. }
    by rewrite !Hr.
Qed.

Lemma addReaction_bump_other emoji userId r :
  hasEmoji emoji r = false → addReaction_bump emoji userId r = r.
Proof. unfold hasEmoji, addReaction_bump. by intros ->. Qed.

Lemma existsb_hasEmoji_bump emoji userId l :
  existsb (hasEmoji emoji) (List.map (addReaction_bump emoji userId) l)
  = existsb (hasEmoji emoji) l.
Proof.
  induction l as [|r l IH]; simpl; [done|]. rewrite IH. f_equal.
  unfold hasEmoji, addReaction_bump.
  destruct (bool_decide (Reaction.emoji r = emoji)) eqn:He; [|done].
  by destruct (some (Reaction.users r) _).
Qed.

Lemma map_bump_absent emoji userId l :
  existsb (hasEmoji emoji) l = false →
  List.map (addReaction_bump emoji userId) l = l.
Proof.
  induction l as [|r l IH]; simpl; [done|].
  intros [Hr Hl]%orb_false_elim.
  by rewrite addReaction_bump_other, IH.
Qed.

Lemma addReaction_bump_member emoji userId n users :
  addReaction_bump emoji userId (Reaction.mk emoji n (userId :: users))
  = Reaction.mk emoji n (userId :: users).
Proof.
  unfold addReaction_bump. cbn [Reaction.emoji Reaction.users].
  by rewrite some_self, bool_decide_eq_true_2.
Qed.

(** C5.  From every state, a second [addReaction] with the same message,
    emoji and identity leaves the whole state, and so the emoji's count and
    identity list, exactly as the first call left it. *)
Theorem addReaction_idempotent messageId emoji userId s :
  addReaction messageId emoji userId (addReaction messageId emoji userId s)
  = addReaction messageId emoji userId s.
Proof.
  rewrite (addReaction_unfold messageId emoji userId (addReaction _ _ _ s)).
  rewrite (addReaction_unfold messageId emoji userId s).
  simpl. rewrite getOrNil_insert_eq.
  unfold set_reactions. simpl. rewrite insert_insert_eq. f_equal. f_equal.
  destruct (existsb (hasEmoji emoji) (getOrNil (reactions s) messageId)) eqn:Hfound.
  - rewrite existsb_hasEmoji_bump, Hfound.
    rewrite List.map_map. apply List.map_ext. intros r.
    apply addReaction_bump_idem.
  - cbn [existsb List.map]. unfold hasEmoji at 1. cbn [Reaction.emoji].
    rewrite bool_decide_eq_true_2 by done. cbn [orb].
    by rewrite addReaction_bump_member, map_bump_absent.
Qed.

(** ** Retroactive rename *)

Lemma renameSender_same senderId newUsername m :
  Message.senderId m = senderId →
  renameSender senderId newUsername m = Message.with_sender m newUsername.
Proof. intros H. unfold renameSender. by rewrite bool_decide_eq_true_2. Qed.

Lemma renameSender_other senderId newUsername m :
  Message.senderId m ≠ senderId → renameSender senderId newUsername m = m.
Proof. intros H. unfold renameSender. by rewrite bool_decide_eq_false_2. Qed.

Lemma renameSender_senderId senderId newUsername m :
  Message.senderId (renameSender senderId newUsername m) = Message.senderId m.
Proof. unfold renameSender. by destruct (bool_decide _). Qed.

Lemma getMessages_updateUsernameRetroactively senderId newUsername room s :
  getMessages room (updateUsernameRetroactively senderId newUsername s)
  = List.map (renameSender senderId newUsername) (getMessages room s).
Proof.
  unfold getMessages. rewrite updateUsernameRetroactively_messages, lookup_fmap.
  destruct (messages s !! room) as [l|]; simpl; [|done].
  by rewrite List.map_rev.
Qed.

(** C6.  After [updateUsernameRetroactively senderId newUsername] every room
    holds the same messages at the same places, each passed through the
    rename: a stored message of that sender shows the new name, and a
    message of any other sender is the very record that was there before;
    nothing but the message table changes. *)
Theorem updateUsernameRetroactively_rewrites_exactly senderId newUsername s :
  let s' := updateUsernameRetroactively senderId newUsername s in
  (∀ room, messages s' !! room
           = List.map (renameSender senderId newUsername) <$> messages s !! room)
  ∧ (∀ room l' m, messages s' !! room = Some l' → m ∈ l' →
       Message.senderId m = senderId → Message.sender m = newUsername)
  ∧ (∀ room l i m, messages s !! room = Some l → l !! i = Some m →
       Message.senderId m ≠ senderId →
       ∃ l', messages s' !! room = Some l' ∧ l' !! i = Some m)
  ∧ (∀ room l' i m', messages s' !! room = Some l' → l' !! i = Some m' →
       Message.senderId m' ≠ senderId →
       ∃ l, messages s !! room = Some l ∧ l !! i = Some m')
  ∧ (∀ room, length (getMessages room s') = length (getMessages room s))
  ∧ chatrooms s' = chatrooms s ∧ activeUsers s' = activeUsers s
  ∧ reactions s' = reactions s
  ∧ nextMessageId s' = nextMessageId s ∧ nextChatroomId s' = nextChatroomId s.
Proof.
  intros s'.
  assert (Hlook : ∀ room, messages s' !! room
            = List.map (renameSender senderId newUsername) <$> messages s !! room).
  { intros room. unfold s'.
    by rewrite updateUsernameRetroactively_messages, lookup_fmap. }
  split_and!; try done.
  - intros room l' m Hl' Hm Hid. rewrite Hlook in Hl'.
    destruct (messages s !! room) as [l|]; [|discriminate].
    injection Hl' as <-.
    apply list_elem_of_In, in_map_iff in Hm as (m0 & <- & _).
    rewrite renameSender_senderId in Hid.
    by rewrite renameSender_same.
  - intros room l i m Hl Hi Hid. rewrite Hlook, Hl. simpl.
    eexists; split; [done|].
    change (List.map ?f l) with (f <$> l).
    rewrite list_lookup_fmap, Hi. simpl. by rewrite renameSender_other.
  - intros room l' i m' Hl' Hi Hid. rewrite Hlook in Hl'.
    destruct (messages s !! room) as [l|]; [|discriminate].
    injection Hl' as <-.
    eexists; split; [done|].
    change (List.map ?f l) with (f <$> l) in Hi.
    rewrite list_lookup_fmap in Hi.
    destruct (l !! i) as [m|]; [|discriminate].
    injection Hi as <-.
    rewrite renameSender_senderId in Hid.
    by rewrite renameSender_other.
  - intros room. unfold s'.
    by rewrite getMessages_updateUsernameRetroactively, length_map.
Qed.

(** ** Liveness *)

Lemma withinThreshold_spec now u :
  withinThreshold now u = true
  ↔ (Z.abs (now - ActiveUser.lastActive u) ≤ 60 * 1000000000)%Z.
Proof. unfold withinThreshold, activeThreshold. apply bool_decide_eq_true. Qed.

Lemma filter_nonempty_iff {A : Type} (f : A → bool) (l : list A) :
  0 < length (List.filter f l) ↔ ∃ x, x ∈ l ∧ f x = true.
Proof.
  split.
  - destruct (List.filter f l) as [|x l'] eqn:Hf; simpl; [lia|]. intros _.
    assert (Hx : In x (List.filter f l)) by (rewrite Hf; by left).
    apply filter_In in Hx as [Hx Hfx]. exists x. by rewrite list_elem_of_In.
  - intros (x & Hx & Hfx).
    assert (Hin : In x (List.filter f l)).
    { apply filter_In. by rewrite <- list_elem_of_In. }
    destruct (List.filter f l); simpl; [done | lia].
Qed.

(** C7, as the code has it.  For an existing room, [getChatroom] at clock
    reading [now] counts exactly the presence records of the room with
    [|now - lastActive| <= 60 s], reports the room live exactly when there
    is such a record and not live exactly when every record is more than
    60 s away; the test is symmetric, so a record dated up to 60 s after
    [now] is counted as well; with a single record the room is live exactly
    when that record is within 60 s. *)
Theorem getChatroom_live_iff_some_record_within_window s id now chatroom :
  chatrooms s !! id = Some chatroom →
  let records := getOrNil (activeUsers s) id in
  ∃ view,
    getChatroom id now s = Some view
    ∧ ChatroomWithLiveStatus.activeUserCount view
      = length (List.filter (withinThreshold now) records)
    ∧ (∀ u, u ∈ List.filter (withinThreshold now) records
          ↔ u ∈ records
            ∧ (now - 60 * 1000000000 ≤ ActiveUser.lastActive u
               ≤ now + 60 * 1000000000)%Z)
    ∧ (ChatroomWithLiveStatus.isLive view = true
       ↔ ∃ u, u ∈ records
              ∧ (Z.abs (now - ActiveUser.lastActive u) ≤ 60 * 1000000000)%Z)
    ∧ (ChatroomWithLiveStatus.isLive view = false
       ↔ ∀ u, u ∈ records
              → (Z.abs (now - ActiveUser.lastActive u) > 60 * 1000000000)%Z)
    ∧ (∀ u, records = [u] →
         (ChatroomWithLiveStatus.isLive view = true
          ↔ (Z.abs (now - ActiveUser.lastActive u) ≤ 60 * 1000000000)%Z)).
Proof.
  intros Hroom records. unfold getChatroom. rewrite Hroom.
  eexists; split; [reflexivity|]. simpl. fold records.
  assert (Hlive : (0 <? length (List.filter (withinThreshold now) records)) = true
            ↔ ∃ u, u ∈ records
                   ∧ (Z.abs (now - ActiveUser.lastActive u) ≤ 60 * 1000000000)%Z).
  { rewrite Nat.ltb_lt, filter_nonempty_iff.
    split; intros (u & Hu & Hw); exists u; split; try done;
      by apply withinThreshold_spec. }
  split_and!.
  - done.
  - intros u. rewrite list_elem_of_In, filter_In, <- list_elem_of_In.
    rewrite withinThreshold_spec. split; intros [? ?]; split; try done; lia.
  - done.
  - rewrite <- not_true_iff_false, Hlive. split.
    + intros Hnone u Hu.
      destruct (decide (Z.abs (now - ActiveUser.lastActive u) ≤ 60 * 1000000000)%Z);
        [|lia].
      exfalso. apply Hnone. by exists u.
    + intros Hall (u & Hu & Hw). specialize (Hall u Hu). lia.
  - intros u Hone. rewrite Hlive, Hone. split.
    + by intros (u' & ->%list_elem_of_singleton & Hw).
    + intros Hw. exists u. split; [by apply list_elem_of_singleton | done].
Qed.

(** ** Inversion of the calls that can trap *)

Lemma createChatroom_ok_inv topic description mediaUrl mediaType category now s s' id :
  createChatroom topic description mediaUrl mediaType category now s = Ok (s', id) →
  id = nextChatroomId s
  ∧ s' = mkState (nextMessageId s + 1) (nextChatroomId s + 1)
           (<[nextChatroomId s :=
                createChatroom_chatroom s now topic description mediaUrl mediaType
                  category]> (chatrooms s))
           (<[nextChatroomId s := [createChatroom_firstMessage s now mediaUrl mediaType]]>
              (messages s))
           (activeUsers s) (reactions s) (userProfiles s).
Proof.
  unfold createChatroom.
  destruct (_ || _); [discriminate|].
  destruct (Text.size mediaUrl =? 0); [discriminate|].
  destruct (Text.size category =? 0); [discriminate|].
  destruct (negb _); [discriminate|].
  intros [= <- <-]. split; [done|].
  unfold set_nextChatroomId, set_nextMessageId, set_messages, set_chatrooms.
  simpl. by rewrite insert_insert_eq.
Qed.

Lemma incrementViewCount_ok_inv chatroomId userId now s s' :
  incrementViewCount chatroomId userId now s = Ok s' →
  ∃ chatroom,
    chatrooms s !! chatroomId = Some chatroom
    ∧ s' = mkState (nextMessageId s) (nextChatroomId s)
             (<[chatroomId :=
                  Chatroom.with_viewCount chatroom (Chatroom.viewCount chatroom + 1)]>
                (chatrooms s))
             (messages s)
             (<[chatroomId := touch (getOrNil (activeUsers s) chatroomId) userId now]>
                (activeUsers s))
             (reactions s) (userProfiles s).
Proof.
  unfold incrementViewCount.
  destruct (chatrooms s !! chatroomId) as [c|]; [|discriminate].
  intros [= <-]. by exists c.
Qed.

Lemma pinVideo_ok_inv chatroomId messageId s s' :
  pinVideo chatroomId messageId s = Ok s' →
  ∃ chatroom,
    chatrooms s !! chatroomId = Some chatroom
    ∧ s' = set_chatrooms s
             (<[chatroomId := Chatroom.with_pinnedVideoId chatroom (Some messageId)]>
                (chatrooms s)).
Proof.
  unfold pinVideo.
  destruct (chatrooms s !! chatroomId) as [c|]; [|discriminate].
  intros [= <-]. by exists c.
Qed.

Lemma unpinVideo_ok_inv chatroomId s s' :
  unpinVideo chatroomId s = Ok s' →
  ∃ chatroom,
    chatrooms s !! chatroomId = Some chatroom
    ∧ s' = set_chatrooms s
             (<[chatroomId := Chatroom.with_pinnedVideoId chatroom None]>
                (chatrooms s)).
Proof.
  unfold unpinVideo.
  destruct (chatrooms s !! chatroomId) as [c|]; [|discriminate].
  intros [= <-]. by exists c.
Qed.

Lemma cleanupInactiveUsers_ok_inv hasPermission now s s' :
  cleanupInactiveUsers hasPermission now s = Ok s' →
  hasPermission = true
  ∧ s' = set_activeUsers s
           (List.filter (withinThreshold now) <$> activeUsers s).
Proof.
  unfold cleanupInactiveUsers. destruct hasPermission; [|discriminate].
  simpl. intros [= <-]. by rewrite patchLoop_entries.
Qed.

(** ** Well-formedness is kept by every call *)

Lemma wfMessages_push nextId msgs room m :
  wfMessages nextId msgs →
  Message.chatroomId m = room → Message.id m = nextId →
  wfMessages (nextId + 1) (<[room := m :: getOrNil msgs room]> msgs).
Proof.
  intros Hwf Hroom Hid room' l Hl.
  destruct (decide (room = room')) as [<-|Hne].
  - rewrite lookup_insert_eq in Hl. injection Hl as <-.
    assert (Hold : Forall (λ m, Message.chatroomId m = room ∧ Message.id m < nextId)
                     (getOrNil msgs room)
                   ∧ StronglySorted newer (List.map Message.id (getOrNil msgs room))).
    { unfold getOrNil. destruct (msgs !! room) as [l0|] eqn:Hl0.
      - by apply Hwf.
      - split; constructor. }
    destruct Hold as [Hall Hsorted]. split.
    + constructor; [split; [done | lia]|].
      eapply Forall_impl; [exact Hall|]. simpl. intros x [? ?]. split; [done | lia].
    + simpl. constructor; [done|].
      apply Forall_forall. intros i Hi.
      apply list_elem_of_In, in_map_iff in Hi as (x & <- & Hx).
      rewrite Forall_forall in Hall. apply list_elem_of_In, Hall in Hx.
      unfold newer. lia.
  - rewrite lookup_insert_ne in Hl by done.
    destruct (Hwf room' l Hl) as [Hall Hsorted]. split; [|done].
    eapply Forall_impl; [exact Hall|]. simpl. intros x [? ?]. split; [done | lia].
Qed.

Lemma wfMessages_seed nextId msgs room m :
  wfMessages nextId msgs →
  Message.chatroomId m = room → Message.id m = nextId →
  wfMessages (nextId + 1) (<[room := [m]]> msgs).
Proof.
  intros Hwf Hroom Hid room' l Hl.
  destruct (decide (room = room')) as [<-|Hne].
  - rewrite lookup_insert_eq in Hl. injection Hl as <-. split.
    + constructor; [split; [done | lia] | constructor].
    + simpl. constructor; constructor.
  - rewrite lookup_insert_ne in Hl by done.
    destruct (Hwf room' l Hl) as [Hall Hsorted]. split; [|done].
    eapply Forall_impl; [exact Hall|]. simpl. intros x [? ?]. split; [done | lia].
Qed.

Lemma wfMessages_patch nextId msgs (f : Message.t → Message.t) :
  (∀ m, Message.id (f m) = Message.id m) →
  (∀ m, Message.chatroomId (f m) = Message.chatroomId m) →
  wfMessages nextId msgs → wfMessages nextId (List.map f <$> msgs).
Proof.
  intros Hid Hroom Hwf room l Hl. rewrite lookup_fmap in Hl.
  destruct (msgs !! room) as [l0|] eqn:Hl0; [|discriminate].
  injection Hl as <-. destruct (Hwf room l0 Hl0) as [Hall Hsorted]. split.
  - apply Forall_forall. intros x Hx.
    apply list_elem_of_In, in_map_iff in Hx as (x0 & <- & Hx0).
    rewrite Forall_forall in Hall. apply list_elem_of_In, Hall in Hx0.
    by rewrite Hid, Hroom.
  - rewrite List.map_map.
    rewrite (List.map_ext (λ x, Message.id (f x)) Message.id) by done. done.
Qed.

Lemma wfChatrooms_patch nextRoom rooms msgs (f : Message.t → Message.t) :
  wfChatrooms nextRoom rooms msgs →
  wfChatrooms nextRoom rooms (List.map f <$> msgs).
Proof.
  intros Hwf room c Hc. destruct (Hwf room c Hc) as (Hid & Hlt & l & Hl & Hlen).
  split_and!; [done..|]. exists (List.map f l). split.
  - by rewrite lookup_fmap, Hl.
  - by rewrite length_map.
Qed.

(** A room rewritten in place with the same id and [messageCount]. *)
Lemma wfChatrooms_update nextRoom rooms msgs room c c' :
  wfChatrooms nextRoom rooms msgs →
  rooms !! room = Some c →
  Chatroom.id c' = Chatroom.id c →
  Chatroom.messageCount c' = Chatroom.messageCount c →
  wfChatrooms nextRoom (<[room := c']> rooms) msgs.
Proof.
  intros Hwf Hc Hid Hcount room' c0 Hc0.
  destruct (decide (room = room')) as [<-|Hne].
  - rewrite lookup_insert_eq in Hc0. injection Hc0 as <-.
    rewrite Hid, Hcount. by apply Hwf.
  - rewrite lookup_insert_ne in Hc0 by done. by apply Hwf.
Qed.

Lemma wfChatrooms_push nextRoom rooms msgs room c m :
  wfChatrooms nextRoom rooms msgs →
  rooms !! room = Some c →
  wfChatrooms nextRoom
    (<[room := Chatroom.with_messageCount c (Chatroom.messageCount c + 1)]> rooms)
    (<[room := m :: getOrNil msgs room]> msgs).
Proof.
  intros Hwf Hc room' c0 Hc0.
  destruct (decide (room = room')) as [<-|Hne].
  - rewrite lookup_insert_eq in Hc0. injection Hc0 as <-.
    destruct (Hwf room c Hc) as (Hid & Hlt & l & Hl & Hlen).
    split_and!; [done..|]. eexists. rewrite lookup_insert_eq. split; [done|].
    unfold getOrNil. rewrite Hl. simpl. lia.
  - rewrite lookup_insert_ne in Hc0 by done.
    destruct (Hwf room' c0 Hc0) as (Hid & Hlt & l & Hl & Hlen).
    split_and!; [done..|]. exists l. by rewrite lookup_insert_ne.
Qed.

Lemma wfChatrooms_create nextRoom rooms msgs c m :
  wfChatrooms nextRoom rooms msgs →
  Chatroom.id c = nextRoom → Chatroom.messageCount c = 1 →
  wfChatrooms (nextRoom + 1) (<[nextRoom := c]> rooms) (<[nextRoom := [m]]> msgs).
Proof.
  intros Hwf Hid Hcount room' c0 Hc0.
  destruct (decide (nextRoom = room')) as [<-|Hne].
  - rewrite lookup_insert_eq in Hc0. injection Hc0 as <-.
    split_and!; [done | lia |]. exists [m]. by rewrite lookup_insert_eq.
  - rewrite lookup_insert_ne in Hc0 by done.
    destruct (Hwf room' c0 Hc0) as (Hid' & Hlt & l & Hl & Hlen).
    split_and!; [done | lia |]. exists l. by rewrite lookup_insert_ne.
Qed.

Lemma renameSender_id senderId newUsername m :
  Message.id (renameSender senderId newUsername m) = Message.id m.
Proof. unfold renameSender. by destruct (bool_decide _). Qed.

Lemma renameSender_chatroomId senderId newUsername m :
  Message.chatroomId (renameSender senderId newUsername m) = Message.chatroomId m.
Proof. unfold renameSender. by destruct (bool_decide _). Qed.

Lemma reavatarSender_id senderId newAvatarUrl m :
  Message.id (reavatarSender senderId newAvatarUrl m) = Message.id m.
Proof. unfold reavatarSender. by destruct (bool_decide _). Qed.

Lemma reavatarSender_chatroomId senderId newAvatarUrl m :
  Message.chatroomId (reavatarSender senderId newAvatarUrl m) = Message.chatroomId m.
Proof. unfold reavatarSender. by destruct (bool_decide _). Qed.

Lemma wf_init : wf init.
Proof.
  split.
  - intros room l Hl. simpl in Hl. by rewrite lookup_empty in Hl.
  - intros room c Hc. simpl in Hc. by rewrite lookup_empty in Hc.
Qed.

Lemma wf_step now o s s' a : wf s → step now o s = Ok (s', a) → wf s'.
Proof.
  intros [Hm Hc] Hstep. destruct o; simpl in Hstep.
  - destruct (createChatroom _ _ _ _ _ _ _) as [[s0 id]|] eqn:Hop; [|discriminate].
    injection Hstep as <- <-.
    apply createChatroom_ok_inv in Hop as [-> ->]. split; simpl.
    + by apply wfMessages_seed.
    + by apply wfChatrooms_create.
  - destruct (sendMessage _ _ _ _ _ _ _ _ _ _) as [s0|] eqn:Hop; [|discriminate].
    injection Hstep as <- <-.
    apply sendMessage_ok_inv in Hop as (c & _ & Hroom & ->). split; simpl.
    + by apply wfMessages_push.
    + by apply wfChatrooms_push.
  - destruct (incrementViewCount _ _ _ _) as [s0|] eqn:Hop; [|discriminate].
    injection Hstep as <- <-.
    apply incrementViewCount_ok_inv in Hop as (c & Hroom & ->). split; simpl.
    + done.
    + by eapply wfChatrooms_update.
  - destruct (pinVideo _ _ _) as [s0|] eqn:Hop; [|discriminate].
    injection Hstep as <- <-.
    apply pinVideo_ok_inv in Hop as (c & Hroom & ->). split; simpl.
    + done.
    + by eapply wfChatrooms_update.
  - destruct (unpinVideo _ _) as [s0|] eqn:Hop; [|discriminate].
    injection Hstep as <- <-.
    apply unpinVideo_ok_inv in Hop as (c & Hroom & ->). split; simpl.
    + done.
    + by eapply wfChatrooms_update.
  - injection Hstep as <- <-. by split.
  - injection Hstep as <- <-. split.
    + rewrite updateUsernameRetroactively_messages. simpl.
      apply wfMessages_patch;
        auto using renameSender_id, renameSender_chatroomId.
    + rewrite updateUsernameRetroactively_messages. simpl.
      by apply wfChatrooms_patch.
  - injection Hstep as <- <-. split.
    + rewrite updateAvatarRetroactively_messages. simpl.
      apply wfMessages_patch;
        auto using reavatarSender_id, reavatarSender_chatroomId.
    + rewrite updateAvatarRetroactively_messages. simpl.
      by apply wfChatrooms_patch.
  - destruct (cleanupInactiveUsers _ _ _) as [s0|] eqn:Hop; [|discriminate].
    injection Hstep as <- <-.
    apply cleanupInactiveUsers_ok_inv in Hop as [_ ->]. by split.
  - injection Hstep as <- <-. rewrite addReaction_unfold. by split.
  - injection Hstep as <- <-. by split.
Qed.

Lemma wf_commit now o s : wf s → wf (commit now o s).
Proof.
  intros Hwf. unfold commit.
  destruct (step now o s) as [[s' a]|] eqn:Hstep; [|done].
  by eapply wf_step.
Qed.

Lemma wf_run calls s : wf s → wf (run calls s).
Proof.
  revert s. induction calls as [|[now o] calls IH]; intros s Hwf; simpl.
  - done.
  - by apply IH, wf_commit.
Qed.

Lemma wf_reachable calls : wf (run calls init).
Proof. apply wf_run, wf_init. Qed.

(** ** Identifiers *)

Lemma step_counters now o s s' a :
  step now o s = Ok (s', a) →
  match roomId a with
  | Some i => i = nextChatroomId s ∧ nextChatroomId s' = nextChatroomId s + 1
  | None => nextChatroomId s' = nextChatroomId s
  end
  ∧ match stored a with
    | Some m => Message.id m = nextMessageId s
                ∧ nextMessageId s' = nextMessageId s + 1
    | None => nextMessageId s' = nextMessageId s
    end.
Proof.
  intros Hstep. destruct o; simpl in Hstep.
  - destruct (createChatroom _ _ _ _ _ _ _) as [[s0 id]|] eqn:Hop; [|discriminate].
    injection Hstep as <- <-.
    by apply createChatroom_ok_inv in Hop as [-> ->].
  - destruct (sendMessage _ _ _ _ _ _ _ _ _ _) as [s0|] eqn:Hop; [|discriminate].
    injection Hstep as <- <-.
    by apply sendMessage_ok_inv in Hop as (c & _ & Hroom & ->).
  - destruct (incrementViewCount _ _ _ _) as [s0|] eqn:Hop; [|discriminate].
    injection Hstep as <- <-.
    by apply incrementViewCount_ok_inv in Hop as (c & Hroom & ->).
  - destruct (pinVideo _ _ _) as [s0|] eqn:Hop; [|discriminate].
    injection Hstep as <- <-.
    by apply pinVideo_ok_inv in Hop as (c & Hroom & ->).
  - destruct (unpinVideo _ _) as [s0|] eqn:Hop; [|discriminate].
    injection Hstep as <- <-.
    by apply unpinVideo_ok_inv in Hop as (c & Hroom & ->).
  - by injection Hstep as <- <-.
  - by injection Hstep as <- <-.
  - by injection Hstep as <- <-.
  - destruct (cleanupInactiveUsers _ _ _) as [s0|] eqn:Hop; [|discriminate].
    injection Hstep as <- <-.
    by apply cleanupInactiveUsers_ok_inv in Hop as [_ ->].
  - injection Hstep as <- <-. by rewrite addReaction_unfold.
  - by injection Hstep as <- <-.
Qed.

(** What a call reports as handed out is what it stored. *)
Lemma step_assigned_stored now o s s' a :
  step now o s = Ok (s', a) →
  (∀ i, roomId a = Some i →
     ∃ c, chatrooms s' !! i = Some c ∧ Chatroom.id c = i)
  ∧ (∀ m, stored a = Some m →
       ∃ older, getMessages (Message.chatroomId m) s' = (older ++ [m])%list).
Proof.
  intros Hstep. destruct o; simpl in Hstep;
    try (injection Hstep as <- <-; by split).
  - destruct (createChatroom _ _ _ _ _ _ _) as [[s0 id]|] eqn:Hop; [|discriminate].
    injection Hstep as <- <-.
    apply createChatroom_ok_inv in Hop as [-> ->]. simpl. split.
    + intros i [= <-]. eexists. by rewrite lookup_insert_eq.
    + intros m [= <-]. exists []. unfold getMessages. simpl.
      by rewrite lookup_insert_eq.
  - destruct (sendMessage _ _ _ _ _ _ _ _ _ _) as [s0|] eqn:Hop; [|discriminate].
    injection Hstep as <- <-.
    apply sendMessage_ok_inv in Hop as (c & _ & Hroom & ->). simpl. split.
    + done.
    + intros m [= <-]. eexists. unfold getMessages. simpl.
      by rewrite lookup_insert_eq.
  - destruct (incrementViewCount _ _ _ _) as [s0|]; [|discriminate].
    injection Hstep as <- <-. by split.
  - destruct (pinVideo _ _ _) as [s0|]; [|discriminate].
    injection Hstep as <- <-. by split.
  - destruct (unpinVideo _ _) as [s0|]; [|discriminate].
    injection Hstep as <- <-. by split.
  - destruct (cleanupInactiveUsers _ _ _) as [s0|]; [|discriminate].
    injection Hstep as <- <-. by split.
Qed.

Lemma assignedRoomIds_from calls s :
  StronglySorted lt (assignedRoomIds calls s)
  ∧ Forall (λ i, nextChatroomId s ≤ i) (assignedRoomIds calls s).
Proof.
  revert s. induction calls as [|[now o] calls IH]; intros s; simpl.
  - split; constructor.
  - destruct (step now o s) as [[s' a]|] eqn:Hstep; [|apply IH].
    apply step_counters in Hstep as [Hroom _].
    destruct (IH s') as [Hsorted Hbound].
    destruct (roomId a) as [i|].
    + destruct Hroom as [-> Hnext]. split.
      * constructor; [done|].
        eapply Forall_impl; [exact Hbound|]. simpl. intros j. lia.
      * constructor; [done|].
        eapply Forall_impl; [exact Hbound|]. simpl. intros j. lia.
    + split; [done|]. by rewrite <- Hroom.
Qed.

Lemma assignedMessageIds_from calls s :
  StronglySorted lt (assignedMessageIds calls s)
  ∧ Forall (λ i, nextMessageId s ≤ i) (assignedMessageIds calls s).
Proof.
  revert s. induction calls as [|[now o] calls IH]; intros s; simpl.
  - split; constructor.
  - destruct (step now o s) as [[s' a]|] eqn:Hstep; [|apply IH].
    apply step_counters in Hstep as [_ Hmsg].
    destruct (IH s') as [Hsorted Hbound].
    destruct (stored a) as [m|].
    + destruct Hmsg as [-> Hnext]. split.
      * constructor; [done|].
        eapply Forall_impl; [exact Hbound|]. simpl. intros j. lia.
      * constructor; [done|].
        eapply Forall_impl; [exact Hbound|]. simpl. intros j. lia.
    + split; [done|]. by rewrite <- Hmsg.
Qed.

Lemma StronglySorted_lt_NoDup (l : list nat) : StronglySorted lt l → NoDup l.
Proof.
  induction 1 as [|x l Hsorted IH Hall]; constructor; [|done].
  intros Hx. rewrite Forall_forall in Hall. specialize (Hall x Hx). lia.
Qed.

(** C8.  Along every history of calls, from every state, the room ids
    returned by [createChatroom] are strictly increasing in call order, and
    so are the ids of the messages stored by [createChatroom] (the seed)
    and [sendMessage], whatever the rooms; hence no id is handed out
    twice, and none lies below the counter the history started from. *)
Theorem assigned_ids_strictly_increasing calls s :
  StronglySorted lt (assignedRoomIds calls s)
  ∧ NoDup (assignedRoomIds calls s)
  ∧ Forall (λ i, nextChatroomId s ≤ i) (assignedRoomIds calls s)
  ∧ StronglySorted lt (assignedMessageIds calls s)
  ∧ NoDup (assignedMessageIds calls s)
  ∧ Forall (λ i, nextMessageId s ≤ i) (assignedMessageIds calls s).
Proof.
  destruct (assignedRoomIds_from calls s) as [Hr1 Hr2].
  destruct (assignedMessageIds_from calls s) as [Hm1 Hm2].
  split_and!; auto using StronglySorted_lt_NoDup.
Qed.

(** ** Threads *)

Lemma getReplies_filter chatroomId parentMessageId s :
  getReplies chatroomId parentMessageId s
  = List.filter (isReplyTo parentMessageId) (getMessages chatroomId s).
Proof.
  unfold getReplies, getMessages.
  destruct (messages s !! chatroomId) as [l|]; [|done].
  simpl. induction l as [|m l IH]; simpl; [done|].
  rewrite List.filter_app. simpl. rewrite <- IH.
  destruct (isReplyTo parentMessageId m); simpl; [done|].
  by rewrite app_nil_r.
Qed.

Lemma isReplyTo_spec parentMessageId m :
  isReplyTo parentMessageId m = true
  ↔ Message.replyToMessageId m = Some parentMessageId.
Proof.
  unfold isReplyTo. destruct (Message.replyToMessageId m) as [r|].
  - rewrite bool_decide_eq_true. split; congruence.
  - split; discriminate.
Qed.

Lemma StronglySorted_filter_map {A : Type} (R : nat → nat → Prop)
    (key : A → nat) (f : A → bool) (l : list A) :
  StronglySorted R (List.map key l) →
  StronglySorted R (List.map key (List.filter f l)).
Proof.
  induction l as [|x l IH]; simpl; [done|].
  intros Hs. apply StronglySorted_inv in Hs as [Hs Hall].
  destruct (f x); simpl; [|by apply IH].
  constructor; [by apply IH|].
  rewrite Forall_forall in Hall. apply Forall_forall. intros k Hk.
  apply Hall. apply list_elem_of_In, in_map_iff in Hk as (y & <- & Hy).
  apply filter_In in Hy as [Hy _]. apply list_elem_of_In, in_map. done.
Qed.

Lemma StronglySorted_newer_rev (l : list nat) :
  StronglySorted newer l → StronglySorted lt (rev l).
Proof.
  induction l as [|x l IH]; simpl; [constructor|].
  intros Hs. apply StronglySorted_inv in Hs as [Hs Hall].
  specialize (IH Hs). clear Hs.
  assert (Hlt : Forall (λ y, y < x) (rev l)).
  { apply Forall_forall. intros y Hy. rewrite Forall_forall in Hall.
    apply Hall. by apply list_elem_of_In, in_rev, list_elem_of_In. }
  induction (rev l) as [|y r IHr]; simpl.
  - constructor; constructor.
  - apply StronglySorted_inv in IH as [IH Hy].
    apply Forall_cons in Hlt as [Hyx Hlt].
    constructor; [by apply IHr|].
    apply Forall_app. split; [done | by constructor].
Qed.

(** C9.  In every reachable state [getReplies chatroomId parentMessageId]
    is the chronological log of the room, as [getMessages] returns it, with
    exactly the messages whose [replyToMessageId] is the parent kept and
    their order kept (ids ascending); every message in it is stored under
    that room and carries that room's id, so a reply stored in another room
    never appears. *)
Theorem getReplies_exact_in_room_order calls chatroomId parentMessageId :
  let s := run calls init in
  getReplies chatroomId parentMessageId s
  = List.filter (isReplyTo parentMessageId) (getMessages chatroomId s)
  ∧ (∀ m, m ∈ getReplies chatroomId parentMessageId s
          ↔ m ∈ getMessages chatroomId s
            ∧ Message.replyToMessageId m = Some parentMessageId)
  ∧ (∀ m, m ∈ getReplies chatroomId parentMessageId s →
          Message.chatroomId m = chatroomId)
  ∧ (∀ other m, other ≠ chatroomId → m ∈ getMessages other s →
          m ∉ getReplies chatroomId parentMessageId s)
  ∧ StronglySorted lt (List.map Message.id (getMessages chatroomId s))
  ∧ StronglySorted lt
      (List.map Message.id (getReplies chatroomId parentMessageId s)).
Proof.
  intros s. pose proof (wf_reachable calls) as [Hwf _]. fold s in Hwf.
  assert (Hmem : ∀ m, m ∈ getReplies chatroomId parentMessageId s
            ↔ m ∈ getMessages chatroomId s
              ∧ Message.replyToMessageId m = Some parentMessageId).
  { intros m. rewrite getReplies_filter.
    by rewrite list_elem_of_In, filter_In, <- list_elem_of_In, isReplyTo_spec. }
  assert (Hroom : ∀ room m, m ∈ getMessages room s → Message.chatroomId m = room).
  { intros room m. unfold getMessages.
    destruct (messages s !! room) as [l|] eqn:Hl; [|by intros ?%elem_of_nil].
    intros Hm%list_elem_of_In%in_rev%list_elem_of_In.
    destruct (Hwf room l Hl) as [Hall _].
    rewrite Forall_forall in Hall. by apply Hall. }
  assert (Hsorted : StronglySorted lt (List.map Message.id (getMessages chatroomId s))).
  { unfold getMessages.
    destruct (messages s !! chatroomId) as [l|] eqn:Hl; [|constructor].
    destruct (Hwf chatroomId l Hl) as [_ Hs].
    rewrite List.map_rev. by apply StronglySorted_newer_rev. }
  split_and!.
  - apply getReplies_filter.
  - done.
  - intros m [Hm _]%Hmem. by apply Hroom.
  - intros other m Hne Hm [Hm' _]%Hmem.
    apply Hroom in Hm, Hm'. congruence.
  - done.
  - rewrite getReplies_filter. by apply StronglySorted_filter_map.
Qed.

(** ** Message count *)

(** C10.  In every state reached from the initial one by public calls, the
    [messageCount] of an existing room is the number of messages in the
    room's log, the seed message included. *)
Theorem messageCount_is_log_length calls room chatroom :
  chatrooms (run calls init) !! room = Some chatroom →
  Chatroom.messageCount chatroom = length (getMessages room (run calls init)).
Proof.
  intros Hc. pose proof (wf_reachable calls) as [_ Hwf].
  destruct (Hwf room chatroom Hc) as (_ & _ & l & Hl & Hlen).
  unfold getMessages. rewrite Hl. by rewrite length_rev.
Qed.

Lemma messageCount_witness :
  Chatroom.messageCount movieNightRoom
  = length (getMessages 0 (run twoVisitors init)).
Proof.
  apply (messageCount_is_log_length twoVisitors 0 movieNightRoom).
  vm_compute. reflexivity.
Defined.

(** [createChatroom] starts a room with one message and [messageCount = 1]. *)
Lemma createChatroom_seeds_one topic description mediaUrl mediaType category now s s' id :
  createChatroom topic description mediaUrl mediaType category now s = Ok (s', id) →
  ∃ c, chatrooms s' !! id = Some c ∧ Chatroom.messageCount c = 1
       ∧ length (getMessages id s') = 1.
Proof.
  intros [-> ->]%createChatroom_ok_inv. eexists. simpl.
  rewrite lookup_insert_eq. split_and!; [done..|].
  unfold getMessages. simpl. by rewrite lookup_insert_eq.
Qed.

(** ** Liveness with several visitors *)

(** C7 as stated fails: [u1]'s record is 100 s old at the time of the query,
    yet the room is reported live, because [u2] has just looked in. *)
Lemma liveness_not_decided_by_one_record :
  ∃ u, u ∈ getOrNil (activeUsers (run twoVisitors init)) 0
       ∧ ActiveUser.userId u = "u1" ∧ ActiveUser.lastActive u = 0%Z
       ∧ ¬ liveExactlyWhenWithin (run twoVisitors init) 0 100000000000%Z u.
Proof.
  exists {| ActiveUser.userId := "u1"; ActiveUser.lastActive := 0 |}.
  split_and!; [| done | done |].
  - vm_compute. apply list_elem_of_In. right. by left.
  - intros Hclaim.
    specialize (Hclaim
      (ChatroomWithLiveStatus.of_chatroom movieNightRoom true 1) eq_refl).
    simpl in Hclaim. destruct Hclaim as [Hwithin _].
    specialize (Hwithin eq_refl). lia.
Qed.

Lemma getChatroom_live_witness :
  ∃ view, getChatroom 0 100000000000%Z (run twoVisitors init) = Some view
          ∧ ChatroomWithLiveStatus.activeUserCount view = 1.
Proof.
  destruct (getChatroom_live_iff_some_record_within_window
              (run twoVisitors init) 0 100000000000%Z movieNightRoom)
    as (view & Hview & Hcount & _).
  - vm_compute. reflexivity.
  - exists view. split; [exact Hview|]. rewrite Hcount. vm_compute. reflexivity.
Defined.

(** ** What the reaction queries return *)

(** C1: after a reaction is added and taken back by the same identity, the
    emoji stays in the result of [getReactions] with count 0 and no
    identity. *)
Theorem getReactions_keeps_emptied_entry :
  getReactions 0 (run reactAndRetract init)
  = [{| Reaction.emoji := "fire"; Reaction.count := 0; Reaction.users := [] |}].
Proof. vm_compute. reflexivity. Qed.

(** C2: when an identity that never reacted asks for removal, the count is
    lowered all the same while the identity list keeps its one member. *)
Theorem removeReaction_by_stranger_breaks_count :
  getReactions 0 (run retractByStranger init)
  = [{| Reaction.emoji := "fire"; Reaction.count := 0; Reaction.users := ["u1"] |}]
  ∧ ¬ Forall countMatchesUsers (getReactions 0 (run retractByStranger init)).
Proof.
  split; [vm_compute; reflexivity|].
  intros Hall. apply Forall_inv in Hall. vm_compute in Hall. discriminate.
Qed.

(** C3 as stated fails: two states with the same [{emoji, count}] view give
    different results, because the result carries the identities. *)
Lemma getReactions_result_carries_identities :
  ¬ exposesOnlyEmojiAndCount 0
      (addReaction 0 "fire" "u1" init) (addReaction 0 "fire" "u2" init).
Proof.
  intros Hclaim. assert (Hsnap : reactionSnapshot 0 (addReaction 0 "fire" "u1" init)
                           = reactionSnapshot 0 (addReaction 0 "fire" "u2" init))
    by (vm_compute; reflexivity).
  apply Hclaim in Hsnap. vm_compute in Hsnap. discriminate.
Qed.

Lemma some_elem_of (userId : string) users :
  some users (λ user, bool_decide (user = userId)) = true → userId ∈ users.
Proof.
  unfold some. intros (u & Hu & Heq)%existsb_exists.
  apply bool_decide_eq_true in Heq as ->. by apply list_elem_of_In.
Qed.

Lemma addReaction_bump_has_user emoji userId r :
  Reaction.emoji r = emoji →
  Reaction.emoji (addReaction_bump emoji userId r) = emoji
  ∧ userId ∈ Reaction.users (addReaction_bump emoji userId r).
Proof.
  intros He. unfold addReaction_bump. rewrite bool_decide_eq_true_2 by done.
  destruct (some (Reaction.users r) _) eqn:Hs; simpl.
  - split; [done | by apply some_elem_of].
  - split; [done | by left].
Qed.

Lemma getReactions_getOrNil messageId s :
  getReactions messageId s = getOrNil (reactions s) messageId.
Proof. unfold getReactions, getOrNil. by destruct (reactions s !! messageId). Qed.

(** C3, as the code has it.  [getReactions messageId] returns the stored
    records of the message unchanged (none stored: the empty list), each
    with its emoji, its count and its list of identities; the
    [{emoji, count}] view is the projection of that result; and right after
    [addReaction messageId emoji userId] the result has a record for the
    emoji whose identity list contains [userId]. *)
Theorem getReactions_returns_stored_records messageId s :
  getReactions messageId s = getOrNil (reactions s) messageId
  ∧ reactionSnapshot messageId s
    = List.map (λ r, (Reaction.emoji r, Reaction.count r))
               (getOrNil (reactions s) messageId)
  ∧ (∀ emoji userId,
       ∃ r, r ∈ getReactions messageId (addReaction messageId emoji userId s)
            ∧ Reaction.emoji r = emoji
            ∧ userId ∈ Reaction.users r).
Proof.
  split_and!.
  - apply getReactions_getOrNil.
  - unfold reactionSnapshot. by rewrite getReactions_getOrNil.
  - intros emoji userId. rewrite getReactions_getOrNil, addReaction_unfold. simpl.
    rewrite getOrNil_insert_eq.
    destruct (existsb (hasEmoji emoji) (getOrNil (reactions s) messageId)) eqn:Hfound.
    + apply existsb_exists in Hfound as (r0 & Hr0 & He).
      apply bool_decide_eq_true in He.
      exists (addReaction_bump emoji userId r0).
      destruct (addReaction_bump_has_user emoji userId r0 He) as [? ?].
      split_and!; [|done..].
      apply list_elem_of_In, in_map. done.
    + eexists. split_and!; [by left | done | by left].
Qed.

(** ** Where the stored count follows the identity list, and where not *)

Lemma addReaction_bump_keeps_count emoji userId r :
  countMatchesUsers r → countMatchesUsers (addReaction_bump emoji userId r).
Proof.
  unfold countMatchesUsers, addReaction_bump. intros Hr.
  destruct (bool_decide (Reaction.emoji r = emoji)); [|done].
  destruct (some (Reaction.users r) _); simpl; [done | lia].
Qed.

Lemma addReaction_keeps_count messageId emoji userId s :
  Forall countMatchesUsers (getReactions messageId s) →
  Forall countMatchesUsers
    (getReactions messageId (addReaction messageId emoji userId s)).
Proof.
  rewrite !getReactions_getOrNil, addReaction_unfold. simpl. rewrite getOrNil_insert_eq. intros Hall.
  destruct (existsb (hasEmoji emoji) (getOrNil (reactions s) messageId)).
  - apply Forall_forall. intros r Hr.
    apply list_elem_of_In, in_map_iff in Hr as (r0 & <- & Hr0).
    apply addReaction_bump_keeps_count.
    rewrite Forall_forall in Hall. by apply Hall, list_elem_of_In.
  - by constructor.
Qed.

Lemma filter_absent (userId : string) users :
  userId ∉ users →
  List.filter (λ user, negb (bool_decide (user = userId))) users = users.
Proof.
  induction users as [|u users IH]; simpl; [done|].
  intros [Hne Hrest]%not_elem_of_cons.
  rewrite bool_decide_eq_false_2 by done. simpl. by rewrite IH.
Qed.

(** The record of the emoji loses one from its count even when the
    identity is not in its list. *)
Lemma removeReaction_patch_absent emoji userId r :
  Reaction.emoji r = emoji → userId ∉ Reaction.users r →
  0 < Reaction.count r → countMatchesUsers r →
  ¬ countMatchesUsers (removeReaction_patch emoji userId r).
Proof.
  unfold countMatchesUsers, removeReaction_patch. intros He Hu Hpos Hr.
  rewrite bool_decide_eq_true_2 by done. simpl.
  rewrite filter_absent by done.
  destruct (0 <? Reaction.count r) eqn:Hlt; [lia|].
  apply Nat.ltb_ge in Hlt. lia.
Qed.

(** [removeReaction] never drops a record. *)
Lemma removeReaction_keeps_entries messageId emoji userId s :
  List.map Reaction.emoji
    (getReactions messageId (removeReaction messageId emoji userId s))
  = List.map Reaction.emoji (getReactions messageId s).
Proof.
  rewrite !getReactions_getOrNil. unfold removeReaction. simpl. rewrite getOrNil_insert_eq.
  rewrite List.map_map. apply List.map_ext. intros r.
  unfold removeReaction_patch. by destruct (bool_decide _).
Qed.

(** ** A session, end to end *)

Example session_create :
  createChatroom "Movie Night" "What to watch" "https://youtu.be/x" "youtube"
    "film" 0%Z init
  = Ok (run [(0%Z, movieNight)] init, 0)
  ∧ Chatroom.messageCount <$> chatrooms (run [(0%Z, movieNight)] init) !! 0
    = Some 1
  ∧ List.map Message.content (getMessages 0 (run [(0%Z, movieNight)] init))
    = ["Media content posted by creator"].
Proof. vm_compute. done. Qed.

Example session_chat :
  let s := run (twoVisitors ++ [(100000000001%Z, AddReaction 1 "+1" "u2")])%list
             init in
  List.map Message.content (getMessages 0 s)
  = ["Media content posted by creator"; "hi"]
  ∧ List.map Message.id (getMessages 0 s) = [0; 1]
  ∧ Chatroom.messageCount <$> chatrooms s !! 0 = Some 2
  ∧ getReactions 1 s
    = [{| Reaction.emoji := "+1"; Reaction.count := 1; Reaction.users := ["u2"] |}]
  ∧ ChatroomWithLiveStatus.activeUserCount <$> getChatroom 0 50000000000%Z s
    = Some 2
  ∧ ChatroomWithLiveStatus.isLive <$> getChatroom 0 50000000000%Z s = Some true
  ∧ ChatroomWithLiveStatus.isLive <$> getChatroom 0 170000000000%Z s = Some false.
Proof. vm_compute. done. Qed.

(** * Further properties of the actor *)

(** ** Creating a room *)

Lemma createChatroom_ok_checks topic description mediaUrl mediaType category now s s' id :
  createChatroom topic description mediaUrl mediaType category now s = Ok (s', id) →
  topic ≠ "" ∧ description ≠ "" ∧ mediaUrl ≠ "" ∧ category ≠ ""
  ∧ validateMediaUrl mediaUrl mediaType = true.
Proof.
  unfold createChatroom.
  destruct (Text.size topic =? 0) eqn:Ht; [discriminate|].
  destruct (Text.size description =? 0) eqn:Hd; [discriminate|]. simpl.
  destruct (Text.size mediaUrl =? 0) eqn:Hm; [discriminate|].
  destruct (Text.size category =? 0) eqn:Hc; [discriminate|].
  destruct (validateMediaUrl mediaUrl mediaType) eqn:Hv; [|discriminate].
  intros _. by rewrite <- !Text_size_nonzero.
Qed.

(** X1.  [createChatroom] traps exactly when the topic, the description, the
    media URL or the category is empty or the media URL does not pass
    [validateMediaUrl] for the given media type; a trapped call leaves the
    state as it was. *)
Theorem createChatroom_traps_iff topic description mediaUrl mediaType category now s :
  ((∃ msg, createChatroom topic description mediaUrl mediaType category now s
           = Trap msg)
   ↔ topic = "" ∨ description = "" ∨ mediaUrl = "" ∨ category = ""
     ∨ validateMediaUrl mediaUrl mediaType = false)
  ∧ (∀ msg, createChatroom topic description mediaUrl mediaType category now s
            = Trap msg →
       commit now (CreateChatroom topic description mediaUrl mediaType category) s
       = s).
Proof.
  split.
  - destruct (createChatroom topic description mediaUrl mediaType category now s)
      as [[s' id]|msg] eqn:Hop.
    + apply createChatroom_ok_checks in Hop as (? & ? & ? & ? & Hv).
      split; [by intros [msg ?] | rewrite Hv].
      intros [?|[?|[?|[?|?]]]]; done.
    + split; [intros _ | by eauto].
      revert Hop. unfold createChatroom.
      destruct (Text.size topic =? 0) eqn:Ht;
        [apply Text_size_zero in Ht; auto|].
      destruct (Text.size description =? 0) eqn:Hd;
        [apply Text_size_zero in Hd; auto|]. simpl.
      destruct (Text.size mediaUrl =? 0) eqn:Hm;
        [apply Text_size_zero in Hm; auto|].
      destruct (Text.size category =? 0) eqn:Hc;
        [apply Text_size_zero in Hc; auto 6|].
      destruct (validateMediaUrl mediaUrl mediaType); [discriminate | auto 6].
  - intros msg Hop. unfold commit. simpl. by rewrite Hop.
Qed.

(** X2.  A [createChatroom] that returns hands out the current room
    counter as the id, stores under it a room with the given texts,
    [messageCount = 1], [viewCount = 0] and nothing pinned, whose log is the
    seed message alone (sender "Creator", identity "creator", carrying the
    room's media, id the current message counter); both counters advance by
    one, and every other room, its log, the presence table and the
    reactions are untouched. *)
Theorem createChatroom_effects topic description mediaUrl mediaType category now s s' id :
  createChatroom topic description mediaUrl mediaType category now s = Ok (s', id) →
  id = nextChatroomId s
  ∧ chatrooms s' !! id
    = Some (Chatroom.mk id topic description mediaUrl mediaType now 1 0 None category)
  ∧ getMessages id s'
    = [Message.mk (nextMessageId s) "Media content posted by creator" now "Creator"
         id (Some mediaUrl) (Some mediaType) None "creator" None]
  ∧ getPinnedVideo id s' = None
  ∧ nextChatroomId s' = nextChatroomId s + 1
  ∧ nextMessageId s' = nextMessageId s + 1
  ∧ (∀ other, other ≠ id →
       chatrooms s' !! other = chatrooms s !! other
       ∧ getMessages other s' = getMessages other s)
  ∧ activeUsers s' = activeUsers s
  ∧ reactions s' = reactions s.
Proof.
  intros [-> ->]%createChatroom_ok_inv. simpl. split_and!; try done.
  - by rewrite lookup_insert_eq.
  - unfold getMessages. simpl. by rewrite lookup_insert_eq.
  - unfold getPinnedVideo. simpl. by rewrite lookup_insert_eq.
  - intros other Hne. unfold getMessages. simpl.
    by rewrite !lookup_insert_ne.
Qed.

Lemma createChatroom_effects_witness :
  ∃ s', createChatroom "Movie Night" "What to watch" "https://youtu.be/x"
          "youtube" "film" 0%Z init = Ok (s', 0)
        ∧ List.length (getMessages 0 s') = 1.
Proof.
  exists (run [(0%Z, movieNight)] init). split; [vm_compute; reflexivity|].
  destruct (createChatroom_effects "Movie Night" "What to watch"
              "https://youtu.be/x" "youtube" "film" 0%Z init
              (run [(0%Z, movieNight)] init) 0)
    as (_ & _ & Hlog & _).
  - vm_compute. reflexivity.
  - rewrite Hlog. reflexivity.
Defined.

(** ** Counting a view *)

(** X3.  [incrementViewCount] traps exactly when the room does not exist
    and then changes nothing; when it returns, the room's [viewCount] has
    grown by exactly one with every other field kept, the caller's
    presence record in the room is replaced by one stamped [now] and put
    in front of the records of the other identities, and no message,
    reaction, counter or other room has changed. *)
Theorem incrementViewCount_effects chatroomId userId now s :
  ((∃ msg, incrementViewCount chatroomId userId now s = Trap msg)
   ↔ chatrooms s !! chatroomId = None)
  ∧ (∀ msg, incrementViewCount chatroomId userId now s = Trap msg →
       commit now (IncrementViewCount chatroomId userId) s = s)
  ∧ (∀ s', incrementViewCount chatroomId userId now s = Ok s' →
       (∃ chatroom,
          chatrooms s !! chatroomId = Some chatroom
          ∧ chatrooms s' !! chatroomId
            = Some (Chatroom.mk (Chatroom.id chatroom) (Chatroom.topic chatroom)
                      (Chatroom.description chatroom) (Chatroom.mediaUrl chatroom)
                      (Chatroom.mediaType chatroom) (Chatroom.createdAt chatroom)
                      (Chatroom.messageCount chatroom)
                      (Chatroom.viewCount chatroom + 1)
                      (Chatroom.pinnedVideoId chatroom)
                      (Chatroom.category chatroom)))
       ∧ activeUsers s' !! chatroomId
         = Some ({| ActiveUser.userId := userId; ActiveUser.lastActive := now |}
                   :: List.filter
                        (λ user, negb (bool_decide (ActiveUser.userId user = userId)))
                        (getOrNil (activeUsers s) chatroomId))
       ∧ messages s' = messages s ∧ reactions s' = reactions s
       ∧ nextMessageId s' = nextMessageId s
       ∧ nextChatroomId s' = nextChatroomId s
       ∧ (∀ other, other ≠ chatroomId →
            chatrooms s' !! other = chatrooms s !! other
            ∧ activeUsers s' !! other = activeUsers s !! other)).
Proof.
  split_and!.
  - unfold incrementViewCount.
    destruct (chatrooms s !! chatroomId);
      (split; [intros [msg Hmsg] | intros Hnone]); try done; by eauto.
  - intros msg Hop. unfold commit. simpl. by rewrite Hop.
  - intros s' (c & Hroom & ->)%incrementViewCount_ok_inv. simpl.
    split_and!; try done.
    + exists c. by rewrite lookup_insert_eq.
    + by rewrite lookup_insert_eq.
    + intros other Hne. by rewrite !lookup_insert_ne.
Qed.

(** ** Pinning *)

(** X4.  [pinVideo] and [unpinVideo] trap exactly when the room does not
    exist, and [getPinnedVideo] of a missing room is nothing.  [pinVideo]
    accepts any message id: when it returns, the room's pin is that id,
    replacing whatever was pinned, and [getPinnedVideo] returns it; when
    [unpinVideo] returns, the room has no pin and [getPinnedVideo] returns
    nothing.  Either call keeps every other field of the room, every
    other room, the messages, the presence table, the reactions and the
    counters. *)
Theorem pinVideo_getPinnedVideo chatroomId messageId s :
  ((∃ msg, pinVideo chatroomId messageId s = Trap msg)
   ↔ chatrooms s !! chatroomId = None)
  ∧ ((∃ msg, unpinVideo chatroomId s = Trap msg)
     ↔ chatrooms s !! chatroomId = None)
  ∧ (chatrooms s !! chatroomId = None → getPinnedVideo chatroomId s = None)
  ∧ (∀ s', pinVideo chatroomId messageId s = Ok s' →
       getPinnedVideo chatroomId s' = Some messageId
       ∧ (∃ c, chatrooms s !! chatroomId = Some c
               ∧ chatrooms s' !! chatroomId
                 = Some (Chatroom.mk (Chatroom.id c) (Chatroom.topic c)
                           (Chatroom.description c) (Chatroom.mediaUrl c)
                           (Chatroom.mediaType c) (Chatroom.createdAt c)
                           (Chatroom.messageCount c) (Chatroom.viewCount c)
                           (Some messageId) (Chatroom.category c)))
       ∧ (∀ other, other ≠ chatroomId →
            chatrooms s' !! other = chatrooms s !! other
            ∧ getPinnedVideo other s' = getPinnedVideo other s)
       ∧ messages s' = messages s ∧ activeUsers s' = activeUsers s
       ∧ reactions s' = reactions s
       ∧ nextMessageId s' = nextMessageId s
       ∧ nextChatroomId s' = nextChatroomId s)
  ∧ (∀ s', unpinVideo chatroomId s = Ok s' →
       getPinnedVideo chatroomId s' = None
       ∧ (∃ c, chatrooms s !! chatroomId = Some c
               ∧ chatrooms s' !! chatroomId
                 = Some (Chatroom.mk (Chatroom.id c) (Chatroom.topic c)
                           (Chatroom.description c) (Chatroom.mediaUrl c)
                           (Chatroom.mediaType c) (Chatroom.createdAt c)
                           (Chatroom.messageCount c) (Chatroom.viewCount c)
                           None (Chatroom.category c)))
       ∧ (∀ other, other ≠ chatroomId →
            chatrooms s' !! other = chatrooms s !! other
            ∧ getPinnedVideo other s' = getPinnedVideo other s)
       ∧ messages s' = messages s ∧ activeUsers s' = activeUsers s
       ∧ reactions s' = reactions s
       ∧ nextMessageId s' = nextMessageId s
       ∧ nextChatroomId s' = nextChatroomId s).
Proof.
  split_and!.
  - unfold pinVideo.
    destruct (chatrooms s !! chatroomId);
      (split; [intros [msg Hmsg] | intros Hnone]); try done; by eauto.
  - unfold unpinVideo.
    destruct (chatrooms s !! chatroomId);
      (split; [intros [msg Hmsg] | intros Hnone]); try done; by eauto.
  - unfold getPinnedVideo. by intros ->.
  - intros s' (c & Hroom & ->)%pinVideo_ok_inv. split_and!; try done.
    + unfold getPinnedVideo. simpl. by rewrite lookup_insert_eq.
    + exists c. simpl. by rewrite lookup_insert_eq.
    + intros other Hne. unfold getPinnedVideo. simpl.
      by rewrite !lookup_insert_ne.
  - intros s' (c & Hroom & ->)%unpinVideo_ok_inv. split_and!; try done.
    + unfold getPinnedVideo. simpl. by rewrite lookup_insert_eq.
    + exists c. simpl. by rewrite lookup_insert_eq.
    + intros other Hne. unfold getPinnedVideo. simpl.
      by rewrite !lookup_insert_ne.
Qed.

(** ** Retroactive avatar change, and how the two rewrites combine *)

Lemma reavatarSender_other senderId newAvatarUrl m :
  Message.senderId m ≠ senderId → reavatarSender senderId newAvatarUrl m = m.
Proof. intros H. unfold reavatarSender. by rewrite bool_decide_eq_false_2. Qed.

Lemma reavatarSender_senderId senderId newAvatarUrl m :
  Message.senderId (reavatarSender senderId newAvatarUrl m) = Message.senderId m.
Proof. unfold reavatarSender. by destruct (bool_decide _). Qed.

Lemma reavatarSender_sender senderId newAvatarUrl m :
  Message.sender (reavatarSender senderId newAvatarUrl m) = Message.sender m.
Proof. unfold reavatarSender. by destruct (bool_decide _). Qed.

(** X5.  After [updateAvatarRetroactively senderId newAvatarUrl] every room
    holds the same messages at the same places, each passed through the
    patch: a stored message of that sender carries the new avatar (none, if
    none was given), a message of any other sender is the record that was
    there before, no display name changes, and nothing but the message
    table changes. *)
Theorem updateAvatarRetroactively_rewrites_exactly senderId newAvatarUrl s :
  let s' := updateAvatarRetroactively senderId newAvatarUrl s in
  (∀ room, getMessages room s'
           = List.map (reavatarSender senderId newAvatarUrl) (getMessages room s))
  ∧ (∀ room m, m ∈ getMessages room s' →
       Message.senderId m = senderId → Message.avatarUrl m = newAvatarUrl)
  ∧ (∀ room i m, getMessages room s !! i = Some m →
       Message.senderId m ≠ senderId → getMessages room s' !! i = Some m)
  ∧ (∀ room,
       List.map Message.sender (getMessages room s')
       = List.map Message.sender (getMessages room s))
  ∧ chatrooms s' = chatrooms s ∧ activeUsers s' = activeUsers s
  ∧ reactions s' = reactions s
  ∧ nextMessageId s' = nextMessageId s ∧ nextChatroomId s' = nextChatroomId s.
Proof.
  intros s'.
  assert (Hget : ∀ room, getMessages room s'
            = List.map (reavatarSender senderId newAvatarUrl) (getMessages room s)).
  { intros room. unfold s', getMessages.
    rewrite updateAvatarRetroactively_messages, lookup_fmap.
    destruct (messages s !! room) as [l|]; simpl; [|done].
    by rewrite List.map_rev. }
  split_and!; try done.
  - intros room m Hm Hid. rewrite Hget in Hm.
    apply list_elem_of_In, in_map_iff in Hm as (m0 & <- & _).
    rewrite reavatarSender_senderId in Hid.
    unfold reavatarSender. by rewrite bool_decide_eq_true_2.
  - intros room i m Hi Hid. rewrite Hget.
    change (List.map ?f ?l) with (f <$> l).
    rewrite list_lookup_fmap, Hi. simpl. by rewrite reavatarSender_other.
  - intros room. rewrite Hget, List.map_map.
    apply List.map_ext. intros m. apply reavatarSender_sender.
Qed.

Lemma state_eq_messages s1 s2 :
  nextMessageId s1 = nextMessageId s2 → nextChatroomId s1 = nextChatroomId s2 →
  chatrooms s1 = chatrooms s2 → messages s1 = messages s2 →
  activeUsers s1 = activeUsers s2 → reactions s1 = reactions s2 →
  userProfiles s1 = userProfiles s2 → s1 = s2.
Proof. destruct s1, s2. simpl. by intros -> -> -> -> -> -> ->. Qed.

Lemma fmap_map_compose {A : Type} (f g : A → A) (m : gmap nat (list A)) :
  List.map f <$> (List.map g <$> m) = List.map (λ x, f (g x)) <$> m.
Proof.
  rewrite <- map_fmap_compose. apply map_fmap_ext. intros i l _. simpl.
  by rewrite List.map_map.
Qed.

(** X6.  The two retroactive rewrites commute, for the same or for different
    identities: changing names then avatars gives the same state as
    changing avatars then names. *)
Theorem retroactive_rewrites_commute who newUsername whom newAvatarUrl s :
  updateUsernameRetroactively who newUsername
    (updateAvatarRetroactively whom newAvatarUrl s)
  = updateAvatarRetroactively whom newAvatarUrl
      (updateUsernameRetroactively who newUsername s).
Proof.
  apply state_eq_messages; try done.
  rewrite !updateUsernameRetroactively_messages, !updateAvatarRetroactively_messages.
  rewrite updateUsernameRetroactively_messages, !fmap_map_compose.
  apply map_fmap_ext. intros i l _. apply List.map_ext. intros m.
  unfold renameSender, reavatarSender.
  destruct (bool_decide (Message.senderId m = who)) eqn:H1,
           (bool_decide (Message.senderId m = whom)) eqn:H2;
    simpl; rewrite ?H1, ?H2; done.
Qed.

(** X7.  Of two renames of the same identity in a row only the second
    shows: the state is the one the second rename alone would give.  In
    particular a rename repeated changes nothing more. *)
Theorem updateUsernameRetroactively_last_wins senderId first second s :
  updateUsernameRetroactively senderId second
    (updateUsernameRetroactively senderId first s)
  = updateUsernameRetroactively senderId second s.
Proof.
  apply state_eq_messages; try done.
  rewrite !updateUsernameRetroactively_messages, fmap_map_compose.
  apply map_fmap_ext. intros i l _. apply List.map_ext. intros m.
  unfold renameSender.
  destruct (bool_decide (Message.senderId m = senderId)) eqn:H1;
    simpl; rewrite ?H1; done.
Qed.

(** ** Sweeping stale presence *)

Lemma filter_filter_same {A : Type} (f : A → bool) (l : list A) :
  List.filter f (List.filter f l) = List.filter f l.
Proof.
  induction l as [|x l IH]; simpl; [done|].
  destruct (f x) eqn:Hx; simpl; [|done]. by rewrite Hx, IH.
Qed.

Lemma getOrNil_fmap {V : Type} (f : list V → list V) (m : gmap nat (list V)) k :
  f [] = [] → getOrNil (f <$> m) k = f (getOrNil m k).
Proof.
  intros Hnil. unfold getOrNil. rewrite lookup_fmap.
  by destruct (m !! k).
Qed.

(** X8.  [cleanupInactiveUsers] traps exactly when the caller lacks the
    admin permission and then changes nothing.  When it returns, every
    room keeps exactly its presence records within 60 s of [now], in their
    order; what [getChatroom] reports for any room at that same time is
    what it reported before the sweep; a second sweep at the same time
    changes nothing; rooms, messages and reactions are untouched. *)
Theorem cleanupInactiveUsers_effects hasPermission now s :
  ((∃ msg, cleanupInactiveUsers hasPermission now s = Trap msg)
   ↔ hasPermission = false)
  ∧ (∀ msg, cleanupInactiveUsers hasPermission now s = Trap msg →
       commit now (CleanupInactiveUsers hasPermission) s = s)
  ∧ (∀ s', cleanupInactiveUsers hasPermission now s = Ok s' →
       (∀ room, activeUsers s' !! room
                = List.filter (withinThreshold now) <$> activeUsers s !! room)
       ∧ (∀ room l u, activeUsers s' !! room = Some l → u ∈ l →
            (Z.abs (now - ActiveUser.lastActive u) ≤ 60 * 1000000000)%Z)
       ∧ (∀ id, getChatroom id now s' = getChatroom id now s)
       ∧ cleanupInactiveUsers hasPermission now s' = Ok s'
       ∧ chatrooms s' = chatrooms s ∧ messages s' = messages s
       ∧ reactions s' = reactions s).
Proof.
  split_and!.
  - unfold cleanupInactiveUsers. destruct hasPermission; simpl.
    + split; [by intros [msg ?] | done].
    + split; [done | by eauto].
  - intros msg Hop. unfold commit. simpl. by rewrite Hop.
  - intros s' Hop. pose proof Hop as [Hperm ->]%cleanupInactiveUsers_ok_inv.
    split_and!; try done.
    + intros room. simpl. by rewrite lookup_fmap.
    + intros room l u Hl Hu. simpl in Hl. rewrite lookup_fmap in Hl.
      destruct (activeUsers s !! room) as [l0|]; [|discriminate].
      injection Hl as <-.
      apply list_elem_of_In, filter_In in Hu as [_ Hu].
      by apply withinThreshold_spec.
    + intros id. unfold getChatroom. simpl.
      destruct (chatrooms s !! id) as [c|]; [|done].
      unfold withLiveStatus. simpl.
      rewrite getOrNil_fmap by done. by rewrite filter_filter_same.
    + subst hasPermission. unfold cleanupInactiveUsers. simpl.
      rewrite patchLoop_entries. f_equal.
      apply state_eq_messages; try done. simpl.
      rewrite <- map_fmap_compose. apply map_fmap_ext. intros i l _. simpl.
      apply filter_filter_same.
Qed.

(** ** The tables of a reachable state *)

Lemma is_Some_insert_existing {V : Type} (m : gmap nat V) k v i :
  is_Some (m !! k) → is_Some (<[k := v]> m !! i) ↔ is_Some (m !! i).
Proof.
  intros Hk. destruct (decide (k = i)) as [<-|Hne].
  - rewrite lookup_insert_eq. split; [done | by eauto].
  - by rewrite lookup_insert_ne.
Qed.

Lemma is_Some_insert_both {V W : Type} (m : gmap nat V) (m' : gmap nat W) k v w :
  (∀ i, is_Some (m !! i) ↔ is_Some (m' !! i)) →
  ∀ i, is_Some (<[k := v]> m !! i) ↔ is_Some (<[k := w]> m' !! i).
Proof.
  intros H i. destruct (decide (k = i)) as [<-|Hne].
  - rewrite !lookup_insert_eq. split; by eauto.
  - by rewrite !lookup_insert_ne.
Qed.

Lemma dense_insert_next {V : Type} (m : gmap nat V) n v :
  (∀ i, is_Some (m !! i) ↔ i < n) →
  ∀ i, is_Some (<[n := v]> m !! i) ↔ i < n + 1.
Proof.
  intros H i. destruct (decide (n = i)) as [<-|Hne].
  - rewrite lookup_insert_eq. split; [lia | by eauto].
  - rewrite lookup_insert_ne by done. rewrite H. lia.
Qed.

Lemma NoDup_map_filter {A B : Type} (key : A → B) (p : A → bool) (l : list A) :
  NoDup (List.map key l) → NoDup (List.map key (List.filter p l)).
Proof.
  induction l as [|x l IH]; simpl; [done|].
  intros [Hx Hl]%NoDup_cons. destruct (p x); simpl; [|by apply IH].
  apply NoDup_cons. split; [|by apply IH].
  intros Hin. apply Hx.
  apply list_elem_of_In, in_map_iff in Hin as (y & Hy & Hy').
  apply filter_In in Hy' as [Hy' _].
  apply list_elem_of_In, in_map_iff. by exists y.
Qed.

Lemma touch_userIds_NoDup users userId now :
  NoDup (List.map ActiveUser.userId users) →
  NoDup (List.map ActiveUser.userId (touch users userId now)).
Proof.
  intros Hnd. unfold touch. simpl. apply NoDup_cons. split.
  - intros Hin. apply list_elem_of_In, in_map_iff in Hin as (u & Hu & Hin).
    apply filter_In in Hin as [_ Hne].
    apply negb_true_iff, bool_decide_eq_false in Hne. done.
  - by apply NoDup_map_filter.
Qed.

Lemma presence_insert_touch (present : gmap nat (list ActiveUser.t)) room userId now :
  (∀ i l, present !! i = Some l → NoDup (List.map ActiveUser.userId l)) →
  ∀ i l, <[room := touch (getOrNil present room) userId now]> present !! i = Some l →
         NoDup (List.map ActiveUser.userId l).
Proof.
  intros H i l. destruct (decide (room = i)) as [<-|Hne].
  - rewrite lookup_insert_eq. intros [= <-]. apply touch_userIds_NoDup.
    unfold getOrNil. destruct (present !! room) as [l0|] eqn:Hl0.
    + by eapply H.
    + constructor.
  - rewrite lookup_insert_ne by done. apply H.
Qed.

(** *** Reactions *)

Lemma some_false_not_elem (userId : string) users :
  some users (λ user, bool_decide (user = userId)) = false → userId ∉ users.
Proof.
  unfold some. intros Hs Hin.
  assert (existsb (λ user, bool_decide (user = userId)) users = true) as Ht.
  { apply existsb_exists. exists userId. split; [by apply list_elem_of_In|].
    by apply bool_decide_eq_true. }
  congruence.
Qed.

Lemma addReaction_bump_emoji emoji userId r :
  Reaction.emoji (addReaction_bump emoji userId r) = Reaction.emoji r.
Proof.
  unfold addReaction_bump. destruct (bool_decide _); [|done].
  by destruct (negb _).
Qed.

Lemma addReaction_bump_ok emoji userId r :
  reactionOk r → reactionOk (addReaction_bump emoji userId r).
Proof.
  intros [Hnd Hle]. unfold addReaction_bump.
  destruct (bool_decide _); [|done].
  destruct (some (Reaction.users r) _) eqn:Hs; simpl; [done|].
  split; simpl; [|lia].
  apply NoDup_cons. split; [by apply some_false_not_elem | done].
Qed.

Lemma existsb_hasEmoji_false emoji l :
  existsb (hasEmoji emoji) l = false → emoji ∉ List.map Reaction.emoji l.
Proof.
  intros Hex Hin. apply list_elem_of_In, in_map_iff in Hin as (r & Hr & Hin).
  assert (existsb (hasEmoji emoji) l = true) as Ht.
  { apply existsb_exists. exists r. split; [done|].
    by apply bool_decide_eq_true. }
  congruence.
Qed.

Lemma filter_length_NoDup (userId : string) users :
  NoDup users →
  length users
  ≤ length (List.filter (λ user, negb (bool_decide (user = userId))) users) + 1.
Proof.
  induction users as [|u users IH]; simpl; [lia|].
  intros [Hu Hnd]%NoDup_cons.
  destruct (decide (u = userId)) as [->|Hne].
  - rewrite bool_decide_eq_true_2 by done. simpl.
    rewrite filter_absent by done. lia.
  - rewrite bool_decide_eq_false_2 by done. simpl. specialize (IH Hnd). lia.
Qed.

Lemma NoDup_filter_bool {A : Type} (p : A → bool) (l : list A) :
  NoDup l → NoDup (List.filter p l).
Proof.
  intros Hnd. rewrite <- (List.map_id (List.filter p l)).
  apply NoDup_map_filter. by rewrite List.map_id.
Qed.

Lemma removeReaction_patch_emoji emoji userId r :
  Reaction.emoji (removeReaction_patch emoji userId r) = Reaction.emoji r.
Proof. unfold removeReaction_patch. by destruct (bool_decide _). Qed.

Lemma removeReaction_patch_ok emoji userId r :
  reactionOk r → reactionOk (removeReaction_patch emoji userId r).
Proof.
  intros [Hnd Hle]. unfold removeReaction_patch.
  destruct (bool_decide _); [|done]. split; simpl.
  - by apply NoDup_filter_bool.
  - pose proof (filter_length_NoDup userId _ Hnd).
    destruct (0 <? Reaction.count r); lia.
Qed.

Lemma reactions_insert_add (table : gmap nat (list Reaction.t)) messageId emoji userId :
  (∀ m l, table !! m = Some l →
     NoDup (List.map Reaction.emoji l) ∧ Forall reactionOk l) →
  ∀ m l,
    <[messageId :=
        if existsb (hasEmoji emoji) (getOrNil table messageId)
        then List.map (addReaction_bump emoji userId) (getOrNil table messageId)
        else {| Reaction.emoji := emoji; Reaction.count := 1;
                Reaction.users := [userId] |} :: getOrNil table messageId]>
      table !! m = Some l →
    NoDup (List.map Reaction.emoji l) ∧ Forall reactionOk l.
Proof.
  intros H m l. destruct (decide (messageId = m)) as [<-|Hne].
  - rewrite lookup_insert_eq. intros [= <-].
    assert (Hold : NoDup (List.map Reaction.emoji (getOrNil table messageId))
                   ∧ Forall reactionOk (getOrNil table messageId)).
    { unfold getOrNil. destruct (table !! messageId) as [l0|] eqn:Hl0.
      - by apply (H messageId).
      - split; constructor. }
    destruct Hold as [Hnd Hok].
    destruct (existsb (hasEmoji emoji) (getOrNil table messageId)) eqn:Hex.
    + split.
      * rewrite List.map_map.
        rewrite (List.map_ext _ Reaction.emoji); [done|].
        intros r. apply addReaction_bump_emoji.
      * apply Forall_forall. intros r Hr.
        apply list_elem_of_In, in_map_iff in Hr as (r0 & <- & Hr0).
        apply addReaction_bump_ok. rewrite Forall_forall in Hok.
        by apply Hok, list_elem_of_In.
    + split.
      * simpl. apply NoDup_cons. split; [by apply existsb_hasEmoji_false | done].
      * constructor; [|done]. split; simpl; [|lia].
        apply NoDup_singleton.
  - rewrite lookup_insert_ne by done. apply H.
Qed.

Lemma reactions_insert_remove (table : gmap nat (list Reaction.t)) messageId emoji userId :
  (∀ m l, table !! m = Some l →
     NoDup (List.map Reaction.emoji l) ∧ Forall reactionOk l) →
  ∀ m l,
    <[messageId :=
        List.map (removeReaction_patch emoji userId) (getOrNil table messageId)]>
      table !! m = Some l →
    NoDup (List.map Reaction.emoji l) ∧ Forall reactionOk l.
Proof.
  intros H m l. destruct (decide (messageId = m)) as [<-|Hne].
  - rewrite lookup_insert_eq. intros [= <-].
    assert (Hold : NoDup (List.map Reaction.emoji (getOrNil table messageId))
                   ∧ Forall reactionOk (getOrNil table messageId)).
    { unfold getOrNil. destruct (table !! messageId) as [l0|] eqn:Hl0.
      - by apply (H messageId).
      - split; constructor. }
    destruct Hold as [Hnd Hok]. split.
    + rewrite List.map_map.
      rewrite (List.map_ext _ Reaction.emoji); [done|].
      intros r. apply removeReaction_patch_emoji.
    + apply Forall_forall. intros r Hr.
      apply list_elem_of_In, in_map_iff in Hr as (r0 & <- & Hr0).
      apply removeReaction_patch_ok. rewrite Forall_forall in Hok.
      by apply Hok, list_elem_of_In.
  - rewrite lookup_insert_ne by done. apply H.
Qed.

(** *** Message ids and seed messages *)

Lemma stored_after_push (msgs : gmap nat (list Message.t)) room m r l x :
  <[room := m :: getOrNil msgs room]> msgs !! r = Some l → x ∈ l →
  x = m ∨ ∃ l0, msgs !! r = Some l0 ∧ x ∈ l0.
Proof.
  destruct (decide (room = r)) as [<-|Hne].
  - rewrite lookup_insert_eq. intros [= <-] [->|Hx]%elem_of_cons; [by left|].
    right. unfold getOrNil in Hx.
    destruct (msgs !! room) as [l0|]; [by eauto | by apply elem_of_nil in Hx].
  - rewrite lookup_insert_ne by done. by eauto.
Qed.

Lemma stored_after_seed (msgs : gmap nat (list Message.t)) room m r l x :
  <[room := [m]]> msgs !! r = Some l → x ∈ l →
  x = m ∨ ∃ l0, msgs !! r = Some l0 ∧ x ∈ l0.
Proof.
  destruct (decide (room = r)) as [<-|Hne].
  - rewrite lookup_insert_eq. intros [= <-] ->%list_elem_of_singleton. by left.
  - rewrite lookup_insert_ne by done. by eauto.
Qed.

Lemma stored_id_below nextId msgs r l x :
  wfMessages nextId msgs → msgs !! r = Some l → x ∈ l → Message.id x < nextId.
Proof.
  intros Hwf Hl Hx. destruct (Hwf r l Hl) as [Hall _].
  rewrite Forall_forall in Hall. by apply Hall.
Qed.

Lemma idsUnique_fresh nextId (msgs msgs' : gmap nat (list Message.t)) m :
  wfMessages nextId msgs → idsUnique msgs → Message.id m = nextId →
  (∀ r l x, msgs' !! r = Some l → x ∈ l →
     x = m ∨ ∃ l0, msgs !! r = Some l0 ∧ x ∈ l0) →
  idsUnique msgs'.
Proof.
  intros Hwf Huniq Hid Hfrom r1 l1 m1 r2 l2 m2 Hl1 Hm1 Hl2 Hm2 Heq.
  destruct (Hfrom r1 l1 m1 Hl1 Hm1) as [->|(k1 & Hk1 & Hx1)],
           (Hfrom r2 l2 m2 Hl2 Hm2) as [->|(k2 & Hk2 & Hx2)].
  - done.
  - pose proof (stored_id_below _ _ _ _ _ Hwf Hk2 Hx2). lia.
  - pose proof (stored_id_below _ _ _ _ _ Hwf Hk1 Hx1). lia.
  - by apply (Huniq r1 k1 m1 r2 k2 m2).
Qed.

Lemma idsUnique_patch (msgs : gmap nat (list Message.t)) (f : Message.t → Message.t) :
  (∀ m, Message.id (f m) = Message.id m) →
  idsUnique msgs → idsUnique (List.map f <$> msgs).
Proof.
  intros Hid Huniq r1 l1 m1 r2 l2 m2 Hl1 Hm1 Hl2 Hm2 Heq.
  rewrite lookup_fmap in Hl1, Hl2.
  destruct (msgs !! r1) as [k1|] eqn:Hk1; [|discriminate].
  destruct (msgs !! r2) as [k2|] eqn:Hk2; [|discriminate].
  injection Hl1 as <-. injection Hl2 as <-.
  apply list_elem_of_In, in_map_iff in Hm1 as (x1 & <- & Hx1).
  apply list_elem_of_In, in_map_iff in Hm2 as (x2 & <- & Hx2).
  rewrite !Hid in Heq. f_equal.
  apply (Huniq r1 k1 x1 r2 k2 x2); try done; by apply list_elem_of_In.
Qed.

Lemma seedFirst_push (msgs : gmap nat (list Message.t)) room m :
  seedFirst msgs → is_Some (msgs !! room) →
  seedFirst (<[room := m :: getOrNil msgs room]> msgs).
Proof.
  intros Hseed [l0 Hl0] i l. destruct (decide (room = i)) as [<-|Hne].
  - rewrite lookup_insert_eq. intros [= <-].
    destruct (Hseed room l0 Hl0) as (x & Hlast & Hx). exists x. split; [|done].
    unfold getOrNil. rewrite Hl0.
    destruct l0 as [|y l0]; [discriminate|]. by rewrite last_cons_cons.
  - rewrite lookup_insert_ne by done. apply Hseed.
Qed.

Lemma seedFirst_seed (msgs : gmap nat (list Message.t)) room m :
  seedFirst msgs → isSeed room m → seedFirst (<[room := [m]]> msgs).
Proof.
  intros Hseed Hm i l. destruct (decide (room = i)) as [<-|Hne].
  - rewrite lookup_insert_eq. intros [= <-]. by exists m.
  - rewrite lookup_insert_ne by done. apply Hseed.
Qed.

Lemma seedFirst_patch (msgs : gmap nat (list Message.t)) (f : Message.t → Message.t) :
  (∀ i m, isSeed i m → isSeed i (f m)) →
  seedFirst msgs → seedFirst (List.map f <$> msgs).
Proof.
  intros Hf Hseed i l Hl. rewrite lookup_fmap in Hl.
  destruct (msgs !! i) as [l0|] eqn:Hl0; [|discriminate]. injection Hl as <-.
  destruct (Hseed i l0 Hl0) as (x & Hlast & Hx). exists (f x). split; [|by apply Hf].
  change (List.map f l0) with (f <$> l0). by rewrite fmap_last, Hlast.
Qed.

Lemma renameSender_isSeed senderId newUsername i m :
  isSeed i m → isSeed i (renameSender senderId newUsername m).
Proof. unfold isSeed, renameSender. by destruct (bool_decide _). Qed.

Lemma reavatarSender_isSeed senderId newAvatarUrl i m :
  isSeed i m → isSeed i (reavatarSender senderId newAvatarUrl m).
Proof. unfold isSeed, reavatarSender. by destruct (bool_decide _). Qed.

Lemma roomValid_insert (rooms : gmap nat Chatroom.t) room c c' :
  (∀ i c0, rooms !! i = Some c0 → roomValid c0) →
  rooms !! room = Some c →
  Chatroom.topic c' = Chatroom.topic c →
  Chatroom.description c' = Chatroom.description c →
  Chatroom.mediaUrl c' = Chatroom.mediaUrl c →
  Chatroom.mediaType c' = Chatroom.mediaType c →
  Chatroom.category c' = Chatroom.category c →
  ∀ i c0, <[room := c']> rooms !! i = Some c0 → roomValid c0.
Proof.
  intros H Hc Ht Hd Hu Hm Hcat i c0. destruct (decide (room = i)) as [<-|Hne].
  - rewrite lookup_insert_eq. intros [= <-]. unfold roomValid.
    rewrite Ht, Hd, Hu, Hm, Hcat. by apply (H room).
  - rewrite lookup_insert_ne by done. apply H.
Qed.

Lemma is_Some_fmap_iff {A B : Type} (f : A → B) (m : gmap nat A) (P : Prop) i :
  (is_Some (m !! i) ↔ P) → (is_Some ((f <$> m) !! i) ↔ P).
Proof. intros H. by rewrite lookup_fmap, fmap_is_Some. Qed.

Lemma inv_init : inv init.
Proof.
  constructor; simpl.
  - intros i. rewrite lookup_empty. split; [by intros [? ?] | lia].
  - intros i. by rewrite !lookup_empty.
  - intros i. rewrite lookup_empty. by intros [? ?].
  - intros i l. by rewrite lookup_empty.
  - intros m l. by rewrite lookup_empty.
  - intros r1 l1 m1 r2 l2 m2. by rewrite lookup_empty.
  - intros i c. by rewrite lookup_empty.
  - intros i l. by rewrite lookup_empty.
Qed.

Lemma inv_step now o s s' a : wf s → inv s → step now o s = Ok (s', a) → inv s'.
Proof.
  intros [Hwf _] [Hdense Hmdom Hpdom Hpnd Hre Hids Hvalid Hseed] Hstep.
  destruct o; simpl in Hstep.
  - destruct (createChatroom _ _ _ _ _ _ _) as [[s0 id]|] eqn:Hop; [|discriminate].
    injection Hstep as <- <-.
    pose proof (createChatroom_ok_checks _ _ _ _ _ _ _ _ _ Hop) as Hchecks.
    apply createChatroom_ok_inv in Hop as [-> ->].
    constructor; simpl; try done.
    + by apply dense_insert_next.
    + by apply is_Some_insert_both.
    + intros i Hi. apply lookup_insert_is_Some'. right. by apply Hpdom.
    + eapply idsUnique_fresh; [done | done | | intros r l x; apply stored_after_seed].
      done.
    + intros i c. destruct (decide (nextChatroomId s = i)) as [<-|Hne].
      * rewrite lookup_insert_eq. by intros [= <-].
      * rewrite lookup_insert_ne by done. apply Hvalid.
    + by apply seedFirst_seed.
  - destruct (sendMessage _ _ _ _ _ _ _ _ _ _) as [s0|] eqn:Hop; [|discriminate].
    injection Hstep as <- <-.
    apply sendMessage_ok_inv in Hop as (c & _ & Hroom & ->).
    constructor; simpl; try done.
    + intros i. rewrite is_Some_insert_existing by eauto. apply Hdense.
    + by apply is_Some_insert_both.
    + intros i [->|Hi]%lookup_insert_is_Some'; apply lookup_insert_is_Some';
        [by left | right; by apply Hpdom].
    + by apply presence_insert_touch.
    + eapply idsUnique_fresh; [done | done | | intros r l x; apply stored_after_push].
      done.
    + by eapply roomValid_insert.
    + apply seedFirst_push; [done|]. apply Hmdom. by eauto.
  - destruct (incrementViewCount _ _ _ _) as [s0|] eqn:Hop; [|discriminate].
    injection Hstep as <- <-.
    apply incrementViewCount_ok_inv in Hop as (c & Hroom & ->).
    constructor; simpl; try done.
    + intros i. rewrite is_Some_insert_existing by eauto. apply Hdense.
    + intros i. rewrite is_Some_insert_existing by eauto. apply Hmdom.
    + intros i [->|Hi]%lookup_insert_is_Some'; apply lookup_insert_is_Some';
        [by left | right; by apply Hpdom].
    + by apply presence_insert_touch.
    + by eapply roomValid_insert.
  - destruct (pinVideo _ _ _) as [s0|] eqn:Hop; [|discriminate].
    injection Hstep as <- <-.
    apply pinVideo_ok_inv in Hop as (c & Hroom & ->).
    constructor; simpl; try done.
    + intros i. rewrite is_Some_insert_existing by eauto. apply Hdense.
    + intros i. rewrite is_Some_insert_existing by eauto. apply Hmdom.
    + intros i Hi. apply lookup_insert_is_Some'. right. by apply Hpdom.
    + by eapply roomValid_insert.
  - destruct (unpinVideo _ _) as [s0|] eqn:Hop; [|discriminate].
    injection Hstep as <- <-.
    apply unpinVideo_ok_inv in Hop as (c & Hroom & ->).
    constructor; simpl; try done.
    + intros i. rewrite is_Some_insert_existing by eauto. apply Hdense.
    + intros i. rewrite is_Some_insert_existing by eauto. apply Hmdom.
    + intros i Hi. apply lookup_insert_is_Some'. right. by apply Hpdom.
    + by eapply roomValid_insert.
  - injection Hstep as <- <-. by constructor.
  - injection Hstep as <- <-.
    constructor; rewrite ?updateUsernameRetroactively_messages; simpl; try done.
    + intros i. by apply is_Some_fmap_iff.
    + apply idsUnique_patch; [apply renameSender_id | done].
    + apply seedFirst_patch; [apply renameSender_isSeed | done].
  - injection Hstep as <- <-.
    constructor; rewrite ?updateAvatarRetroactively_messages; simpl; try done.
    + intros i. by apply is_Some_fmap_iff.
    + apply idsUnique_patch; [apply reavatarSender_id | done].
    + apply seedFirst_patch; [apply reavatarSender_isSeed | done].
  - destruct (cleanupInactiveUsers _ _ _) as [s0|] eqn:Hop; [|discriminate].
    injection Hstep as <- <-.
    apply cleanupInactiveUsers_ok_inv in Hop as [_ ->].
    constructor; simpl; try done.
    + intros i. rewrite lookup_fmap, fmap_is_Some. apply Hpdom.
    + intros i l. rewrite lookup_fmap.
      destruct (activeUsers s !! i) as [l0|] eqn:Hl0; [|discriminate].
      intros [= <-]. apply NoDup_map_filter. by apply (Hpnd i).
  - injection Hstep as <- <-. rewrite addReaction_unfold.
    constructor; simpl; try done. by apply reactions_insert_add.
  - injection Hstep as <- <-.
    constructor; simpl; try done. by apply reactions_insert_remove.
Qed.

Lemma wf_inv_run calls s : wf s → inv s → wf (run calls s) ∧ inv (run calls s).
Proof.
  revert s. induction calls as [|[now o] calls IH]; intros s Hwf Hinv; simpl.
  - done.
  - unfold commit. destruct (step now o s) as [[s' a]|] eqn:Hstep.
    + apply IH; [by eapply wf_step | by eapply inv_step].
    + by apply IH.
Qed.

Lemma inv_reachable calls : inv (run calls init).
Proof. apply wf_inv_run; [apply wf_init | apply inv_init]. Qed.

Lemma getMessages_elem_of room s m :
  m ∈ getMessages room s ↔ ∃ l, messages s !! room = Some l ∧ m ∈ l.
Proof.
  unfold getMessages. destruct (messages s !! room) as [l|].
  - rewrite list_elem_of_In, <- in_rev, <- list_elem_of_In. split.
    + intros Hm. by exists l.
    + by intros (l' & [= <-] & Hm).
  - split; [by intros ?%elem_of_nil | by intros (l & ? & _)].
Qed.

Lemma getMessages_nonempty room s :
  getMessages room s ≠ [] ↔ ∃ l, messages s !! room = Some l ∧ l ≠ [].
Proof.
  unfold getMessages. destruct (messages s !! room) as [l|].
  - split.
    + intros Hne. exists l. split; [done|]. intros ->. by apply Hne.
    + intros (l' & [= <-] & Hne) Hrev. apply Hne.
      apply (f_equal (@rev _)) in Hrev. by rewrite rev_involutive in Hrev.
  - split; [done | by intros (l & ? & _)].
Qed.

(** X9.  In every reachable state the rooms are exactly those with an id
    below the room counter, so no room is ever removed and ids are handed
    out without gaps; a room has a non-empty log exactly when it exists;
    and presence is only ever recorded for rooms that exist. *)
Theorem rooms_are_the_ids_below_counter calls i now :
  let s := run calls init in
  (is_Some (getChatroom i now s) ↔ i < nextChatroomId s)
  ∧ (getMessages i s ≠ [] ↔ i < nextChatroomId s)
  ∧ (getOrNil (activeUsers s) i ≠ [] → i < nextChatroomId s)
  ∧ size (chatrooms s) = nextChatroomId s.
Proof.
  intros s. destruct (inv_reachable calls) as [Hdense Hmdom Hpdom _ _ _ _ Hseed].
  fold s in Hdense, Hmdom, Hpdom, Hseed. split_and!.
  - rewrite <- Hdense. unfold getChatroom.
    destruct (chatrooms s !! i); split; intros [? ?]; by eauto.
  - rewrite <- Hdense, <- Hmdom, getMessages_nonempty. split.
    + intros (l & Hl & _). by eauto.
    + intros [l Hl]. exists l. split; [done|].
      destruct (Hseed i l Hl) as (m & Hlast & _). by intros ->.
  - intros Hne. apply Hdense, Hpdom. unfold getOrNil in Hne.
    destruct (activeUsers s !! i); [by eauto | done].
  - assert (Hdom : dom (chatrooms s) = set_seq 0 (nextChatroomId s)).
    { apply set_eq. intros k. rewrite elem_of_dom, Hdense, elem_of_set_seq. lia. }
    rewrite <- size_dom, Hdom. apply size_set_seq.
Qed.

(** X10.  In every reachable state a room holds at most one presence
    record per identity, so [activeUserCount] counts distinct
    identities. *)
Theorem presence_one_record_per_identity calls room :
  NoDup (List.map ActiveUser.userId (getOrNil (activeUsers (run calls init)) room)).
Proof.
  destruct (inv_reachable calls) as [_ _ _ Hpnd _ _ _ _].
  unfold getOrNil.
  destruct (activeUsers (run calls init) !! room) as [l|] eqn:Hl.
  - by apply (Hpnd room).
  - constructor.
Qed.

(** X11.  In every reachable state the result of [getReactions] has at
    most one record per emoji, no identity twice in a record, and no count
    above the number of identities in its record. *)
Theorem reactions_stay_consistent calls messageId :
  let result := getReactions messageId (run calls init) in
  NoDup (List.map Reaction.emoji result)
  ∧ Forall (λ r, NoDup (Reaction.users r)
                 ∧ Reaction.count r ≤ length (Reaction.users r)) result.
Proof.
  intros result. destruct (inv_reachable calls) as [_ _ _ _ Hre _ _ _].
  unfold result, getReactions.
  destruct (reactions (run calls init) !! messageId) as [l|] eqn:Hl.
  - by apply (Hre messageId).
  - split; constructor.
Qed.

(** X12.  In every reachable state a message id names one stored message:
    two stored messages with the same id are the same record in the same
    room; every stored id lies below the message counter, and every stored
    message carries the id of the existing room it is stored in. *)
Theorem message_ids_are_unique calls r1 r2 m1 m2 :
  let s := run calls init in
  m1 ∈ getMessages r1 s → m2 ∈ getMessages r2 s →
  (Message.id m1 = Message.id m2 → r1 = r2 ∧ m1 = m2)
  ∧ Message.id m1 < nextMessageId s
  ∧ Message.chatroomId m1 = r1
  ∧ is_Some (chatrooms s !! r1).
Proof.
  intros s (l1 & Hl1 & Hm1)%getMessages_elem_of (l2 & Hl2 & Hm2)%getMessages_elem_of.
  destruct (inv_reachable calls) as [_ Hmdom _ _ _ Hids _ _].
  destruct (wf_reachable calls) as [Hwf _]. fold s in Hmdom, Hids, Hwf.
  destruct (Hwf r1 l1 Hl1) as [Hall1 _]. destruct (Hwf r2 l2 Hl2) as [Hall2 _].
  rewrite Forall_forall in Hall1, Hall2.
  destruct (Hall1 m1 Hm1) as [Hr1 Hlt]. destruct (Hall2 m2 Hm2) as [Hr2 _].
  split_and!; try done.
  - intros Heq. assert (m1 = m2) as -> by by apply (Hids r1 l1 m1 r2 l2 m2).
    split; [congruence | done].
  - apply Hmdom. by eauto.
Qed.

Lemma message_ids_are_unique_witness :
  ∃ m, m ∈ getMessages 0 (run twoVisitors init)
       ∧ Message.id m < nextMessageId (run twoVisitors init).
Proof.
  exists (createChatroom_firstMessage init 0 "https://youtu.be/x" "youtube").
  assert (Hin : createChatroom_firstMessage init 0 "https://youtu.be/x" "youtube"
                ∈ getMessages 0 (run twoVisitors init)).
  { vm_compute. apply list_elem_of_In. by left. }
  split; [exact Hin|].
  apply (message_ids_are_unique twoVisitors 0 0 _ _ Hin Hin).
Defined.

Lemma validateMediaUrl_types url mediaType :
  validateMediaUrl url mediaType = true →
  mediaType = "image" ∨ mediaType = "youtube" ∨ mediaType = "twitch"
  ∨ mediaType = "twitter".
Proof.
  unfold validateMediaUrl.
  repeat (case_bool_decide; [by auto|]). discriminate.
Qed.

(** X13.  In every reachable state every room passed the checks of
    [createChatroom] and still does: topic, description, media URL and
    category are non-empty, the media type is one of "image", "youtube",
    "twitch", "twitter", the media URL is valid for it, and the room
    carries the id it is stored under. *)
Theorem stored_rooms_stay_valid calls room chatroom :
  chatrooms (run calls init) !! room = Some chatroom →
  Chatroom.id chatroom = room
  ∧ Chatroom.topic chatroom ≠ "" ∧ Chatroom.description chatroom ≠ ""
  ∧ Chatroom.mediaUrl chatroom ≠ "" ∧ Chatroom.category chatroom ≠ ""
  ∧ validateMediaUrl (Chatroom.mediaUrl chatroom) (Chatroom.mediaType chatroom) = true
  ∧ (Chatroom.mediaType chatroom = "image" ∨ Chatroom.mediaType chatroom = "youtube"
     ∨ Chatroom.mediaType chatroom = "twitch"
     ∨ Chatroom.mediaType chatroom = "twitter").
Proof.
  intros Hc. destruct (inv_reachable calls) as [_ _ _ _ _ _ Hvalid _].
  destruct (wf_reachable calls) as [_ Hwf].
  destruct (Hwf room chatroom Hc) as (Hid & _).
  destruct (Hvalid room chatroom Hc) as (? & ? & ? & ? & Hv).
  split_and!; try done. by eapply validateMediaUrl_types.
Qed.

Lemma stored_rooms_stay_valid_witness :
  Chatroom.id movieNightRoom = 0 ∧ Chatroom.topic movieNightRoom ≠ "".
Proof.
  destruct (stored_rooms_stay_valid twoVisitors 0 movieNightRoom) as (H1 & H2 & _).
  - vm_compute. reflexivity.
  - split; [exact H1 | exact H2].
Defined.

(** X14.  In every reachable state the chronological log of an existing
    room starts with its seed message: identity "creator", the fixed seed
    content, the room's id, not a reply, and the smallest id of the
    log. *)
Theorem log_starts_with_seed calls room :
  let s := run calls init in
  room < nextChatroomId s →
  ∃ seed rest,
    getMessages room s = seed :: rest
    ∧ Message.senderId seed = "creator"
    ∧ Message.content seed = "Media content posted by creator"
    ∧ Message.chatroomId seed = room
    ∧ Message.replyToMessageId seed = None
    ∧ Forall (λ m, Message.id seed < Message.id m) rest.
Proof.
  intros s Hroom. destruct (inv_reachable calls) as [Hdense Hmdom _ _ _ _ _ Hseed].
  destruct (wf_reachable calls) as [Hwf _]. fold s in Hdense, Hmdom, Hseed, Hwf.
  assert (is_Some (messages s !! room)) as [l Hl] by by apply Hmdom, Hdense.
  destruct (Hseed room l Hl) as (seed & Hlast & Hs1 & Hs2 & Hs3 & Hs4).
  apply last_Some in Hlast as [l' ->].
  destruct (Hwf room _ Hl) as [_ Hsorted].
  exists seed, (rev l'). unfold getMessages. rewrite Hl.
  split_and!; try done.
  - by rewrite rev_app_distr.
  - apply StronglySorted_newer_rev in Hsorted.
    rewrite List.map_app, rev_app_distr in Hsorted. simpl in Hsorted.
    apply StronglySorted_inv in Hsorted as [_ Hall].
    rewrite <- List.map_rev in Hall.
    apply Forall_forall. intros m Hm. rewrite Forall_forall in Hall.
    apply Hall. apply list_elem_of_In, in_map. by apply list_elem_of_In.
Qed.

Lemma log_starts_with_seed_witness :
  ∃ seed rest, getMessages 0 (run twoVisitors init) = seed :: rest
               ∧ Message.senderId seed = "creator".
Proof.
  destruct (log_starts_with_seed twoVisitors 0) as (seed & rest & Hlog & Hid & _).
  - vm_compute. lia.
  - exists seed, rest. split; [exact Hlog | exact Hid].
Defined.

(** ** Adding and removing reactions *)

Lemma some_not_elem_false (userId : string) users :
  userId ∉ users → some users (λ user, bool_decide (user = userId)) = false.
Proof.
  intros Hu. destruct (some users _) eqn:Hs; [|done].
  by apply some_elem_of in Hs.
Qed.

Lemma state_eq_reactions s table :
  table = reactions s → set_reactions s table = s.
Proof. intros ->. by destruct s. Qed.

Lemma removeReaction_patch_bump emoji userId r :
  (Reaction.emoji r = emoji → userId ∉ Reaction.users r) →
  removeReaction_patch emoji userId (addReaction_bump emoji userId r) = r.
Proof.
  intros Hu. unfold addReaction_bump.
  destruct (bool_decide (Reaction.emoji r = emoji)) eqn:He.
  - apply bool_decide_eq_true in He. rewrite some_not_elem_false by auto. simpl.
    unfold removeReaction_patch. simpl. rewrite bool_decide_eq_true_2 by done.
    rewrite bool_decide_eq_true_2 by done. simpl.
    rewrite filter_absent by auto.
    replace (0 <? Reaction.count r + 1) with true
      by (symmetry; apply Nat.ltb_lt; lia).
    replace (Reaction.count r + 1 - 1) with (Reaction.count r) by lia.
    by destruct r.
  - unfold removeReaction_patch. by rewrite He.
Qed.

(** X15.  Taking back a reaction just added.  If the emoji already had a
    record on the message and the identity was not in it, [addReaction]
    followed by [removeReaction] gives back the very state from before.
    If the emoji had no record, the pair leaves a record of the emoji with
    count 0 and no identity in front of the old records. *)
Theorem removeReaction_after_addReaction messageId emoji userId s :
  ((∃ r, r ∈ getReactions messageId s ∧ Reaction.emoji r = emoji) →
   (∀ r, r ∈ getReactions messageId s → Reaction.emoji r = emoji →
         userId ∉ Reaction.users r) →
   removeReaction messageId emoji userId (addReaction messageId emoji userId s) = s)
  ∧ ((∀ r, r ∈ getReactions messageId s → Reaction.emoji r ≠ emoji) →
     getReactions messageId
       (removeReaction messageId emoji userId (addReaction messageId emoji userId s))
     = {| Reaction.emoji := emoji; Reaction.count := 0; Reaction.users := [] |}
         :: getReactions messageId s).
Proof.
  split.
  - intros (r0 & Hr0 & He0) Habsent.
    rewrite addReaction_unfold. unfold removeReaction. simpl.
    rewrite getOrNil_insert_eq, insert_insert_eq.
    rewrite getReactions_getOrNil in Hr0, Habsent.
    replace (existsb (hasEmoji emoji) (getOrNil (reactions s) messageId)) with true.
    2:{ symmetry. apply existsb_exists. exists r0.
        split; [by apply list_elem_of_In | by apply bool_decide_eq_true]. }
    unfold set_reactions at 1. simpl. apply state_eq_reactions.
    rewrite List.map_map.
    rewrite (map_ext_in _ Datatypes.id).
    2:{ intros r Hr. apply removeReaction_patch_bump.
        intros He. apply Habsent; [by apply list_elem_of_In | done]. }
    rewrite List.map_id. apply insert_id.
    unfold getOrNil in *. destruct (reactions s !! messageId); [done|].
    by apply elem_of_nil in Hr0.
  - intros Hnone. rewrite !getReactions_getOrNil in *.
    rewrite addReaction_unfold. unfold removeReaction. simpl.
    rewrite !getOrNil_insert_eq.
    replace (existsb (hasEmoji emoji) (getOrNil (reactions s) messageId)) with false.
    2:{ symmetry. apply not_true_iff_false.
        intros (r & Hr & He)%existsb_exists. apply bool_decide_eq_true in He.
        by apply (Hnone r); [apply list_elem_of_In|]. }
    simpl. unfold removeReaction_patch at 1. simpl.
    rewrite bool_decide_eq_true_2 by done. simpl.
    rewrite bool_decide_eq_true_2 by done. simpl. f_equal.
    rewrite (map_ext_in _ Datatypes.id); [by rewrite List.map_id|].
    intros r Hr. unfold removeReaction_patch.
    rewrite bool_decide_eq_false_2; [done|].
    apply Hnone. by apply list_elem_of_In.
Qed.

Lemma removeReaction_after_addReaction_witness :
  removeReaction 0 "fire" "u2" (addReaction 0 "fire" "u2" (addReaction 0 "fire" "u1" init))
  = addReaction 0 "fire" "u1" init.
Proof.
  apply (removeReaction_after_addReaction 0 "fire" "u2" (addReaction 0 "fire" "u1" init)).
  - exists {| Reaction.emoji := "fire"; Reaction.count := 1; Reaction.users := ["u1"] |}.
    split; [|reflexivity]. vm_compute. apply list_elem_of_In. by left.
  - intros r Hr _. vm_compute in Hr.
    apply list_elem_of_singleton in Hr as ->. simpl.
    intros [=]%list_elem_of_singleton.
Defined.

(** X16.  After [removeReaction messageId emoji userId] no record of that
    emoji on that message lists the identity; the records stay where they
    were, those of other emojis untouched, those of the emoji with the
    identity filtered out and the count lowered by one (not below zero);
    other messages' reactions and the other tables are as before. *)
Theorem removeReaction_effects messageId emoji userId s :
  let s' := removeReaction messageId emoji userId s in
  (∀ r, r ∈ getReactions messageId s' → Reaction.emoji r = emoji →
        userId ∉ Reaction.users r)
  ∧ (∀ i r, getReactions messageId s !! i = Some r → Reaction.emoji r ≠ emoji →
        getReactions messageId s' !! i = Some r)
  ∧ (∀ i r, getReactions messageId s !! i = Some r → Reaction.emoji r = emoji →
        getReactions messageId s' !! i
        = Some {| Reaction.emoji := emoji;
                  Reaction.count := Reaction.count r - 1;
                  Reaction.users :=
                    List.filter (λ user, negb (bool_decide (user = userId)))
                                (Reaction.users r) |})
  ∧ length (getReactions messageId s') = length (getReactions messageId s)
  ∧ (∀ other, other ≠ messageId → getReactions other s' = getReactions other s)
  ∧ messages s' = messages s ∧ chatrooms s' = chatrooms s
  ∧ activeUsers s' = activeUsers s.
Proof.
  intros s'.
  assert (Hget : getReactions messageId s'
                 = List.map (removeReaction_patch emoji userId)
                            (getReactions messageId s)).
  { unfold s'. rewrite !getReactions_getOrNil. unfold removeReaction. simpl.
    by rewrite getOrNil_insert_eq. }
  split_and!; try done.
  - intros r Hr He. rewrite Hget in Hr.
    apply list_elem_of_In, in_map_iff in Hr as (r0 & <- & _).
    rewrite removeReaction_patch_emoji in He.
    unfold removeReaction_patch. rewrite bool_decide_eq_true_2 by done. simpl.
    intros Hin%list_elem_of_In%filter_In. destruct Hin as [_ Hne].
    apply negb_true_iff, bool_decide_eq_false in Hne. done.
  - intros i r Hi Hne. rewrite Hget.
    change (List.map ?f ?l) with (f <$> l). rewrite list_lookup_fmap, Hi. simpl.
    unfold removeReaction_patch. by rewrite bool_decide_eq_false_2.
  - intros i r Hi He. rewrite Hget.
    change (List.map ?f ?l) with (f <$> l). rewrite list_lookup_fmap, Hi. simpl.
    unfold removeReaction_patch. rewrite bool_decide_eq_true_2 by done.
    rewrite He. do 2 f_equal.
    destruct (0 <? Reaction.count r) eqn:Hpos; [done|].
    apply Nat.ltb_ge in Hpos. lia.
  - by rewrite Hget, length_map.
  - intros other Hne. unfold s'. rewrite !getReactions_getOrNil.
    unfold removeReaction. simpl. by rewrite getOrNil_insert_ne.
Qed.

(** X17.  [addReaction messageId emoji userId] on a message whose emoji
    has a record keeps every record in place: it adds the identity in
    front and one to the count where the identity is not yet listed, and
    changes nothing where it is; when the emoji has no record, a record
    with count 1 and that identity alone is put in front of the others.
    Other messages' reactions and the other tables are as before, and the
    message need not exist. *)
Theorem addReaction_effects messageId emoji userId s :
  let s' := addReaction messageId emoji userId s in
  (∀ i r, getReactions messageId s !! i = Some r → Reaction.emoji r = emoji →
        getReactions messageId s' !! i
        = Some (if bool_decide (userId ∈ Reaction.users r) then r
                else {| Reaction.emoji := emoji;
                        Reaction.count := Reaction.count r + 1;
                        Reaction.users := userId :: Reaction.users r |}))
  ∧ ((∃ r, r ∈ getReactions messageId s ∧ Reaction.emoji r = emoji) →
     ∀ i r, getReactions messageId s !! i = Some r → Reaction.emoji r ≠ emoji →
        getReactions messageId s' !! i = Some r)
  ∧ ((∀ r, r ∈ getReactions messageId s → Reaction.emoji r ≠ emoji) →
     getReactions messageId s'
     = {| Reaction.emoji := emoji; Reaction.count := 1; Reaction.users := [userId] |}
         :: getReactions messageId s)
  ∧ (∀ other, other ≠ messageId → getReactions other s' = getReactions other s)
  ∧ messages s' = messages s ∧ chatrooms s' = chatrooms s
  ∧ activeUsers s' = activeUsers s.
Proof.
  intros s'.
  assert (Hfound : ∀ r0, r0 ∈ getReactions messageId s → Reaction.emoji r0 = emoji →
            getReactions messageId s'
            = List.map (addReaction_bump emoji userId) (getReactions messageId s)).
  { intros r0 Hr0 He0. unfold s'. rewrite !getReactions_getOrNil in *.
    rewrite addReaction_unfold. simpl. rewrite getOrNil_insert_eq.
    replace (existsb (hasEmoji emoji) (getOrNil (reactions s) messageId)) with true;
      [done|].
    symmetry. apply existsb_exists. exists r0.
    split; [by apply list_elem_of_In | by apply bool_decide_eq_true]. }
  split_and!.
  - intros i r Hi He.
    rewrite (Hfound r); [| by eapply list_elem_of_lookup_2 | done].
    change (List.map ?f ?l) with (f <$> l). rewrite list_lookup_fmap, Hi. simpl.
    f_equal. unfold addReaction_bump. rewrite bool_decide_eq_true_2 by done.
    case_bool_decide as Hu.
    + destruct (some (Reaction.users r) _) eqn:Hs; [done|].
      by apply some_false_not_elem in Hs.
    + rewrite some_not_elem_false by done. simpl. by rewrite He.
  - intros (r0 & Hr0 & He0) i r Hi Hne. rewrite (Hfound r0) by done.
    change (List.map ?f ?l) with (f <$> l). rewrite list_lookup_fmap, Hi. simpl.
    unfold addReaction_bump. by rewrite bool_decide_eq_false_2.
  - intros Hnone. unfold s'. rewrite !getReactions_getOrNil in *.
    rewrite addReaction_unfold. simpl. rewrite getOrNil_insert_eq.
    replace (existsb (hasEmoji emoji) (getOrNil (reactions s) messageId)) with false;
      [done|].
    symmetry. apply not_true_iff_false.
    intros (r & Hr & He)%existsb_exists. apply bool_decide_eq_true in He.
    by apply (Hnone r); [apply list_elem_of_In|].
  - intros other Hne. unfold s'. rewrite !getReactions_getOrNil.
    rewrite addReaction_unfold. simpl. by rewrite getOrNil_insert_ne.
  - unfold s'. by rewrite addReaction_unfold.
  - unfold s'. by rewrite addReaction_unfold.
  - unfold s'. by rewrite addReaction_unfold.
Qed.

(** ** Messages with their reactions *)

(** X18.  [getMessageWithReactionsAndReplies] returns the messages of
    [getMessages], in the same order and with the same fields, each with
    the list that [getReactions] returns for its id; for a room without a
    log it returns nothing. *)
Theorem getMessageWithReactionsAndReplies_pairs chatroomId s :
  getMessageWithReactionsAndReplies chatroomId s
  = List.map (λ m, MessageWithReactions.of_message m (getReactions (Message.id m) s))
             (getMessages chatroomId s)
  ∧ List.map MessageWithReactions.to_message
             (getMessageWithReactionsAndReplies chatroomId s)
    = getMessages chatroomId s
  ∧ (∀ w, w ∈ getMessageWithReactionsAndReplies chatroomId s →
          MessageWithReactions.reactions w
          = getReactions (MessageWithReactions.id w) s)
  ∧ (messages s !! chatroomId = None →
     getMessageWithReactionsAndReplies chatroomId s = []).
Proof.
  assert (Heq : getMessageWithReactionsAndReplies chatroomId s
            = List.map (λ m, MessageWithReactions.of_message m
                               (getReactions (Message.id m) s))
                       (getMessages chatroomId s)).
  { unfold getMessageWithReactionsAndReplies, getMessages.
    destruct (messages s !! chatroomId) as [l|]; [|done].
    apply List.map_ext. intros m. by rewrite getReactions_getOrNil. }
  split_and!.
  - done.
  - rewrite Heq, List.map_map. rewrite <- (List.map_id (getMessages chatroomId s)) at 2.
    apply List.map_ext. intros m. by destruct m.
  - intros w Hw. rewrite Heq in Hw.
    by apply list_elem_of_In, in_map_iff in Hw as (m & <- & _).
  - unfold getMessageWithReactionsAndReplies. by intros ->.
Qed.

(** ** Reply previews *)

Lemma tabulate_nth_firstn {T : Type} (l : list T) (d : T) (n : nat) :
  n ≤ length l → tabulate n (λ i, nth i l d) = firstn n l.
Proof.
  unfold tabulate. revert n. induction l as [|x l IH]; intros n Hn; simpl in *.
  - by replace n with 0 by lia.
  - destruct n as [|n]; [done|]. simpl. f_equal.
    rewrite <- seq_shift, List.map_map. apply IH. lia.
Qed.

Lemma fromArray_toArray (t : string) : Text.fromArray (Text.toArray t) = t.
Proof.
  induction t as [|c t IH]; [done|]. cbn [Text.toArray].
  destruct (Text.continues t).
  - destruct (Text.toArray t) as [|ch rest] eqn:Hchars.
    + cbn [Text.fromArray] in *. by rewrite <- IH.
    + cbn [Text.fromArray] in *.
      change (String c ch ++ Text.fromArray rest)%string
        with (String c (ch ++ Text.fromArray rest)).
      by rewrite IH.
  - cbn [Text.fromArray].
    change (String c "" ++ Text.fromArray (Text.toArray t))%string
      with (String c (Text.fromArray (Text.toArray t))).
    by rewrite IH.
Qed.

Lemma append_assoc (a b c : string) :
  ((a ++ b) ++ c)%string = (a ++ (b ++ c))%string.
Proof.
  induction a as [|x a IH]; [done|].
  change ((String x a ++ b) ++ c)%string with (String x ((a ++ b) ++ c)).
  change (String x a ++ (b ++ c))%string with (String x (a ++ (b ++ c))).
  by rewrite IH.
Qed.

Lemma fromArray_app (a b : list string) :
  Text.fromArray (a ++ b) = (Text.fromArray a ++ Text.fromArray b)%string.
Proof.
  induction a as [|ch a IH]; [done|].
  change ((ch :: a) ++ b)%list with (ch :: (a ++ b))%list.
  cbn [Text.fromArray]. rewrite IH. symmetry. apply append_assoc.
Qed.

(** The first character of a text starts with the first byte of the text. *)
Lemma continues_first (t ch : string) rest :
  Text.toArray t = ch :: rest → Text.continues ch = Text.continues t.
Proof.
  destruct t as [|c t]; simpl; [done|].
  destruct (Text.continues t).
  - destruct (Text.toArray t); by intros [= <- <-].
  - by intros [= <- <-].
Qed.

Lemma toArray_shape (t : string) :
  Forall isChar (Text.toArray t)
  ∧ Forall (λ ch, Text.continues ch = false) (tail (Text.toArray t)).
Proof.
  induction t as [|c t [IHchar IHfresh]]; simpl; [by split|].
  destruct (Text.continues t) eqn:Hcont.
  - destruct (Text.toArray t) as [|ch rest] eqn:Hchars; simpl in *.
    + split; [|done]. constructor; [|done]. by exists c, EmptyString.
    + split; [|done]. apply Forall_cons in IHchar as [(d & w & -> & Hw) IHchar].
      constructor; [|done]. exists c, (String d w). split; [done|]. simpl.
      rewrite Hw, andb_true_r.
      pose proof (continues_first t (String d w) rest Hchars) as Hfirst.
      simpl in Hfirst. congruence.
  - simpl. split.
    + constructor; [by exists c, EmptyString | done].
    + destruct (Text.toArray t) as [|ch rest] eqn:Hchars; [done|].
      simpl in IHfresh. constructor; [|done].
      pose proof (continues_first t ch rest Hchars) as Hfirst. congruence.
Qed.

Lemma toArray_char (c : ascii) (w rest : string) :
  allContinuation w = true → Text.continues rest = false →
  Text.toArray (String c (w ++ rest)) = String c w :: Text.toArray rest.
Proof.
  revert c. induction w as [|d w IH]; intros c Hw Hrest.
  - change ("" ++ rest)%string with rest. simpl. by rewrite Hrest.
  - change (String d w ++ rest)%string with (String d (w ++ rest)).
    simpl in Hw. apply andb_true_iff in Hw as [Hd Hw].
    specialize (IH d Hw Hrest).
    change (Text.toArray (String c (String d (w ++ rest))))
      with (if Text.continues (String d (w ++ rest))
            then match Text.toArray (String d (w ++ rest)) with
                 | ch :: more => String c ch :: more
                 | [] => [String c EmptyString]
                 end
            else String c EmptyString :: Text.toArray (String d (w ++ rest))).
    rewrite IH. simpl. by rewrite Hd.
Qed.

(** Characters put together and taken apart again are the same
    characters. *)
Lemma toArray_fromArray (a : list string) :
  Forall isChar a → Forall (λ ch, Text.continues ch = false) (tail a) →
  Text.toArray (Text.fromArray a) = a.
Proof.
  induction a as [|ch a IH]; [done|]. intros Hchar Hfresh. simpl in Hfresh.
  apply Forall_cons in Hchar as [(c & w & -> & Hw) Hchar].
  assert (Hrest : Text.continues (Text.fromArray a) = false).
  { destruct a as [|ch2 a]; [done|].
    apply Forall_cons in Hfresh as [Hch2 _].
    apply Forall_cons in Hchar as [(c2 & w2 & -> & _) _]. done. }
  change (Text.fromArray (String c w :: a))
    with (String c (w ++ Text.fromArray a)).
  rewrite toArray_char by done. f_equal. apply IH; [done|].
  destruct a as [|ch2 a]; [done|]. simpl. by apply Forall_cons in Hfresh as [_ ?].
Qed.

Lemma toArray_firstn (t : string) (n : nat) :
  Text.toArray (Text.fromArray (firstn n (Text.toArray t)))
  = firstn n (Text.toArray t).
Proof.
  destruct (toArray_shape t) as [Hchar Hfresh].
  apply toArray_fromArray.
  - by apply Forall_take.
  - destruct n as [|n]; [done|].
    destruct (Text.toArray t) as [|ch rest]; [done|]. simpl in *.
    by apply Forall_take.
Qed.

(** [truncateText] keeps the first [maxLength] characters, or the whole
    text when it has no more. *)
Lemma truncateText_firstn (text : string) (maxLength : nat) :
  truncateText text maxLength
  = Text.fromArray (firstn maxLength (Text.toArray text)).
Proof.
  unfold truncateText.
  destruct (maxLength <? length (Text.toArray text)) eqn:Hlt.
  - apply Nat.ltb_lt in Hlt. by rewrite tabulate_nth_firstn by lia.
  - apply Nat.ltb_ge in Hlt. rewrite tabulate_nth_firstn by lia.
    by rewrite !firstn_all2 by lia.
Qed.

(** The snippet computed by [getReplyPreview]. *)
Lemma snippet_firstn (content : string) :
  (if 100 <? Text.size content then truncateText content 100 else content)
  = Text.fromArray (firstn 100 (Text.toArray content)).
Proof.
  unfold Text.size. destruct (100 <? _) eqn:Hlt.
  - apply truncateText_firstn.
  - apply Nat.ltb_ge in Hlt. rewrite firstn_all2 by lia.
    by rewrite fromArray_toArray.
Qed.

Lemma firstn_chars_facts (content : string) (n : nat) :
  let snippet := Text.fromArray (firstn n (Text.toArray content)) in
  Text.size snippet = Nat.min n (Text.size content)
  ∧ (∃ rest, content = (snippet ++ rest)%string)
  ∧ (Text.size content ≤ n → snippet = content).
Proof.
  intros snippet. unfold snippet, Text.size. split_and!.
  - by rewrite toArray_firstn, length_firstn.
  - exists (Text.fromArray (skipn n (Text.toArray content))).
    by rewrite <- fromArray_app, firstn_skipn, fromArray_toArray.
  - intros Hle. rewrite firstn_all2 by lia. apply fromArray_toArray.
Qed.

(** X19.  [getReplyPreview chatroomId messageId] returns nothing exactly
    when the room's log holds no message with that id (a missing room
    included).  Otherwise it describes a message of that room with that
    id: its display name, its media URL, and as snippet the first 100
    characters of its content, which is the whole content when that has
    no more than 100 characters. *)
Theorem getReplyPreview_found_iff chatroomId messageId s :
  (getReplyPreview chatroomId messageId s = None
   ↔ ∀ m, m ∈ getMessages chatroomId s → Message.id m ≠ messageId)
  ∧ (∀ preview, getReplyPreview chatroomId messageId s = Some preview →
       ∃ m, m ∈ getMessages chatroomId s ∧ Message.id m = messageId
            ∧ ReplyPreview.messageId preview = messageId
            ∧ ReplyPreview.sender preview = Message.sender m
            ∧ ReplyPreview.mediaThumbnail preview = Message.mediaUrl m
            ∧ ReplyPreview.contentSnippet preview
              = Text.fromArray (firstn 100 (Text.toArray (Message.content m)))
            ∧ Text.size (ReplyPreview.contentSnippet preview)
              = Nat.min 100 (Text.size (Message.content m))
            ∧ (∃ rest, Message.content m
                       = (ReplyPreview.contentSnippet preview ++ rest)%string)
            ∧ (Text.size (Message.content m) ≤ 100 →
               ReplyPreview.contentSnippet preview = Message.content m)).
Proof.
  unfold getReplyPreview.
  destruct (messages s !! chatroomId) as [l|] eqn:Hl.
  2:{ split; [|done]. split; [|done]. intros _ m (l & Hl' & _)%getMessages_elem_of.
      congruence. }
  destruct (List.find _ l) as [msg|] eqn:Hfind.
  - apply find_some in Hfind as [Hin Hid]. apply bool_decide_eq_true in Hid.
    assert (Hmsg : msg ∈ getMessages chatroomId s).
    { apply getMessages_elem_of. exists l. split; [done | by apply list_elem_of_In]. }
    split.
    + split; [done|]. intros Hnone. by apply Hnone in Hmsg.
    + intros preview [= <-]. exists msg. simpl.
      rewrite snippet_firstn.
      destruct (firstn_chars_facts (Message.content msg) 100) as (? & ? & ?).
      by split_and!.
  - split; [|done]. split; [|done]. intros _ m (l' & Hl' & Hm)%getMessages_elem_of.
    assert (l' = l) as -> by congruence.
    apply list_elem_of_In in Hm.
    pose proof (find_none _ _ Hfind m Hm) as Hne. simpl in Hne.
    by apply bool_decide_eq_false in Hne.
Qed.

(** ** Listing and searching rooms *)

#[local] Instance keyLe_total {V : Type} : Total (@keyLe V).
Proof. intros a b. unfold keyLe. lia. Qed.

Lemma entries_Permutation {V : Type} (m : gmap nat V) :
  entries m ≡ₚ map_to_list m.
Proof. apply merge_sort_Permutation. Qed.

Lemma entries_lookup {V : Type} (m : gmap nat V) :
  Forall (λ kv, m !! kv.1 = Some kv.2) (entries m).
Proof.
  apply Forall_forall. intros [k v] Hkv. simpl.
  rewrite entries_Permutation in Hkv. by apply elem_of_map_to_list.
Qed.

Lemma Sorted_le_seq j n : Sorted le (seq j n).
Proof.
  revert j. induction n as [|n IH]; intros j; simpl; constructor; [apply IH|].
  destruct n; simpl; constructor. lia.
Qed.

(** The keys of a map whose keys are the numbers below [n] are walked as
    [0, 1, ..., n - 1]. *)
Lemma entries_keys_dense {V : Type} (m : gmap nat V) n :
  (∀ i, is_Some (m !! i) ↔ i < n) → (entries m).*1 = seq 0 n.
Proof.
  intros Hdense. apply (StronglySorted_unique le).
  - apply Sorted_StronglySorted; [apply _|].
    apply (Sorted_fmap fst keyLe le); [by intros [? ?] [? ?]|].
    apply Sorted_merge_sort, _.
  - apply Sorted_StronglySorted; [apply _ | apply Sorted_le_seq].
  - apply NoDup_Permutation.
    + rewrite entries_Permutation. apply NoDup_fst_map_to_list.
    + apply NoDup_seq.
    + intros i. rewrite entries_Permutation, elem_of_seq, list_elem_of_fmap.
      split.
      * intros ([k v] & -> & Hkv). apply elem_of_map_to_list in Hkv. simpl.
        assert (i := k). split; [lia|]. apply Hdense. by eauto.
      * intros [_ Hi]. simpl in Hi. apply Hdense in Hi as [v Hv].
        exists (i, v). split; [done | by apply elem_of_map_to_list].
Qed.

Lemma map_along_entries {A B : Type} (es : list (nat * A)) (g : A → B)
    (h : nat → option B) :
  Forall (λ kv, h kv.1 = Some (g kv.2)) es →
  Some <$> (g <$> es.*2) = h <$> es.*1.
Proof.
  induction es as [|[k v] es IH]; intros Hall; [done|].
  apply Forall_cons in Hall as [Hkv Hall]. rewrite !fmap_cons.
  simpl in Hkv. simpl. rewrite Hkv. f_equal. by apply IH.
Qed.

(** X20.  In every reachable state [getChatrooms] lists every room once,
    in ascending id order from 0 to the room counter, each exactly as
    [getChatroom] returns it at the same time. *)
Theorem getChatrooms_lists_every_room calls now :
  let s := run calls init in
  Some <$> getChatrooms now s
  = (λ i, getChatroom i now s) <$> seq 0 (nextChatroomId s).
Proof.
  intros s. destruct (inv_reachable calls) as [Hdense _ _ _ _ _ _ _].
  destruct (wf_reachable calls) as [_ Hwf]. fold s in Hdense, Hwf.
  assert (Hmain : Some <$> List.map
                    (λ chatroom, withLiveStatus s now (Chatroom.id chatroom) chatroom)
                    (vals (chatrooms s))
                  = (λ i, getChatroom i now s) <$> seq 0 (nextChatroomId s)).
  { rewrite <- (entries_keys_dense (chatrooms s)) by done.
    change (List.map ?g ?l) with (g <$> l). unfold vals.
    apply map_along_entries.
    eapply Forall_impl; [apply entries_lookup|]. simpl. intros [k c] Hkc.
    unfold getChatroom. simpl in *. rewrite Hkc.
    by destruct (Hwf k c Hkc) as (-> & _). }
  unfold getChatrooms. destruct (size (chatrooms s) =? 0) eqn:Hsize; [|done].
  apply Nat.eqb_eq, map_size_empty_iff in Hsize.
  rewrite <- Hmain. unfold vals, entries. rewrite Hsize.
  by rewrite map_to_list_empty.
Qed.







(** ** Activity and liveness *)

Lemma touch_counted users userId now t :
  (Z.abs (t - now) ≤ 60 * 1000000000)%Z →
  1 ≤ length (List.filter (withinThreshold t) (touch users userId now)).
Proof.
  intros Ht. unfold touch. simpl.
  replace (withinThreshold t (ActiveUser.mk userId now)) with true.
  - simpl. lia.
  - symmetry. by apply withinThreshold_spec.
Qed.

(** X22.  A message sent or a view counted at time [now] makes the room
    live for every query whose clock reading is within 60 s of [now],
    earlier or later: [getChatroom] reports [isLive = true] and at least
    one active user. *)
Theorem activity_makes_room_live now t s :
  (Z.abs (t - now) ≤ 60 * 1000000000)%Z →
  (∀ content sender chatroomId mediaUrl mediaType avatarUrl senderId
     replyToMessageId s',
     sendMessage content sender chatroomId mediaUrl mediaType avatarUrl senderId
       replyToMessageId now s = Ok s' →
     ∃ view, getChatroom chatroomId t s' = Some view
             ∧ ChatroomWithLiveStatus.isLive view = true
             ∧ 1 ≤ ChatroomWithLiveStatus.activeUserCount view)
  ∧ (∀ chatroomId userId s',
       incrementViewCount chatroomId userId now s = Ok s' →
       ∃ view, getChatroom chatroomId t s' = Some view
               ∧ ChatroomWithLiveStatus.isLive view = true
               ∧ 1 ≤ ChatroomWithLiveStatus.activeUserCount view).
Proof.
  intros Ht. split.
  - intros content sender chatroomId mediaUrl mediaType avatarUrl senderId
      replyToMessageId s' (c & _ & Hroom & ->)%sendMessage_ok_inv.
    unfold getChatroom. simpl. rewrite lookup_insert_eq.
    eexists. split; [done|]. simpl. rewrite getOrNil_insert_eq.
    pose proof (touch_counted (getOrNil (activeUsers s) chatroomId) senderId now t Ht).
    split; [by apply Nat.ltb_lt | done].
  - intros chatroomId userId s' (c & Hroom & ->)%incrementViewCount_ok_inv.
    unfold getChatroom. simpl. rewrite lookup_insert_eq.
    eexists. split; [done|]. simpl. rewrite getOrNil_insert_eq.
    pose proof (touch_counted (getOrNil (activeUsers s) chatroomId) userId now t Ht).
    split; [by apply Nat.ltb_lt | done].
Qed.

Lemma activity_makes_room_live_witness :
  ∃ view, getChatroom 0 50000000000%Z (run twoVisitors init) = Some view
          ∧ ChatroomWithLiveStatus.isLive view = true.
Proof.
  assert (Hwin : (Z.abs (50000000000 - 100000000000) ≤ 60 * 1000000000)%Z) by lia.
  destruct (activity_makes_room_live 100000000000%Z 50000000000%Z
              (run [(0%Z, movieNight);
                    (0%Z, SendMessage "hi" "Alice" 0 None None None "u1" None)] init)
              Hwin) as [_ Hview].
  destruct (Hview 0 "u2" (run twoVisitors init)) as (view & Hget & Hlive & _).
  - vm_compute. reflexivity.
  - exists view. split; [exact Hget | exact Hlive].
Defined.

(** ** What later calls keep *)

Lemma run_app calls more s : run (calls ++ more)%list s = run more (run calls s).
Proof.
  revert s. induction calls as [|[now o] calls IH]; intros s; simpl; [done|].
  apply IH.
Qed.

Lemma renameSender_fixedPart senderId newUsername m :
  fixedPart (renameSender senderId newUsername m) = fixedPart m.
Proof. unfold renameSender. by destruct (bool_decide _). Qed.

Lemma reavatarSender_fixedPart senderId newAvatarUrl m :
  fixedPart (reavatarSender senderId newAvatarUrl m) = fixedPart m.
Proof. unfold reavatarSender. by destruct (bool_decide _). Qed.

Lemma getMessages_patch (f : Message.t → Message.t) room s s' :
  messages s' = List.map f <$> messages s →
  getMessages room s' = List.map f (getMessages room s).
Proof.
  intros Hm. unfold getMessages. rewrite Hm, lookup_fmap.
  destruct (messages s !! room) as [l|]; simpl; [|done]. by rewrite List.map_rev.
Qed.

Lemma getMessages_same room s s' :
  messages s' = messages s → getMessages room s' = getMessages room s.
Proof. unfold getMessages. by intros ->. Qed.

Lemma step_log_grows now o s s' a room :
  inv s → step now o s = Ok (s', a) →
  List.map fixedPart (getMessages room s)
  `prefix_of` List.map fixedPart (getMessages room s').
Proof.
  intros Hinv Hstep. destruct o; simpl in Hstep.
  - destruct (createChatroom _ _ _ _ _ _ _) as [[s0 id]|] eqn:Hop; [|discriminate].
    injection Hstep as <- <-.
    apply createChatroom_ok_inv in Hop as [-> ->].
    destruct (decide (room = nextChatroomId s)) as [->|Hne].
    + assert (messages s !! nextChatroomId s = None) as Hnone.
      { apply eq_None_not_Some. intros Hsome%(inv_messages_dom s Hinv).
        apply (inv_rooms_dense s Hinv) in Hsome. lia. }
      unfold getMessages at 1. rewrite Hnone. apply prefix_nil.
    + unfold getMessages. simpl. by rewrite lookup_insert_ne.
  - destruct (sendMessage _ _ _ _ _ _ _ _ _ _) as [s0|] eqn:Hop; [|discriminate].
    injection Hstep as <- <-.
    apply sendMessage_ok_inv in Hop as (c & _ & Hroom & ->).
    destruct (decide (room = chatroomId)) as [->|Hne].
    + rewrite !getMessages_getOrNil. simpl. rewrite getOrNil_insert_eq. simpl.
      rewrite List.map_app. by apply prefix_app_r.
    + unfold getMessages. simpl. by rewrite lookup_insert_ne.
  - destruct (incrementViewCount _ _ _ _) as [s0|] eqn:Hop; [|discriminate].
    injection Hstep as <- <-.
    by apply incrementViewCount_ok_inv in Hop as (c & Hroom & ->).
  - destruct (pinVideo _ _ _) as [s0|] eqn:Hop; [|discriminate].
    injection Hstep as <- <-.
    by apply pinVideo_ok_inv in Hop as (c & Hroom & ->).
  - destruct (unpinVideo _ _) as [s0|] eqn:Hop; [|discriminate].
    injection Hstep as <- <-.
    by apply unpinVideo_ok_inv in Hop as (c & Hroom & ->).
  - by injection Hstep as <- <-.
  - injection Hstep as <- <-.
    rewrite (getMessages_patch _ _ _ _
               (updateUsernameRetroactively_messages senderId newUsername s)).
    rewrite List.map_map.
    by rewrite (List.map_ext
                  (λ m, fixedPart (renameSender senderId newUsername m)) fixedPart)
      by (intros m; apply renameSender_fixedPart).
  - injection Hstep as <- <-.
    rewrite (getMessages_patch _ _ _ _
               (updateAvatarRetroactively_messages senderId newAvatarUrl s)).
    rewrite List.map_map.
    by rewrite (List.map_ext
                  (λ m, fixedPart (reavatarSender senderId newAvatarUrl m)) fixedPart)
      by (intros m; apply reavatarSender_fixedPart).
  - destruct (cleanupInactiveUsers _ _ _) as [s0|] eqn:Hop; [|discriminate].
    injection Hstep as <- <-.
    by apply cleanupInactiveUsers_ok_inv in Hop as [_ ->].
  - injection Hstep as <- <-. by rewrite addReaction_unfold.
  - by injection Hstep as <- <-.
Qed.

Lemma run_log_grows more s room :
  wf s → inv s →
  List.map fixedPart (getMessages room s)
  `prefix_of` List.map fixedPart (getMessages room (run more s)).
Proof.
  revert s. induction more as [|[now o] more IH]; intros s Hwf Hinv; simpl.
  - done.
  - unfold commit. destruct (step now o s) as [[s' a]|] eqn:Hstep.
    + etrans; [by eapply step_log_grows|].
      apply IH; [by eapply wf_step | by eapply inv_step].
    + by apply IH.
Qed.

(** X23.  No call removes, reorders or edits a stored message apart from
    its display name and avatar: whatever calls follow a reachable state,
    each room's chronological log, read without those two fields, starts
    with the log it had. *)
Theorem logs_only_grow calls more room :
  List.map fixedPart (getMessages room (run calls init))
  `prefix_of` List.map fixedPart (getMessages room (run (calls ++ more)%list init)).
Proof.
  rewrite run_app. apply run_log_grows; [apply wf_reachable | apply inv_reachable].
Qed.

Lemma roomKept_insert (rooms : gmap nat Chatroom.t) room key c k k' :
  rooms !! room = Some c → rooms !! key = Some k → roomKept k k' →
  ∃ c', <[key := k']> rooms !! room = Some c' ∧ roomKept c c'.
Proof.
  intros Hc Hk Hkept. destruct (decide (key = room)) as [->|Hne].
  - rewrite lookup_insert_eq. exists k'. split; [done|]. congruence.
  - rewrite lookup_insert_ne by done. exists c. split; [done|].
    by split_and!.
Qed.

Lemma step_room_kept now o s s' a room c :
  inv s → chatrooms s !! room = Some c → step now o s = Ok (s', a) →
  ∃ c', chatrooms s' !! room = Some c' ∧ roomKept c c'.
Proof.
  intros Hinv Hc Hstep.
  assert (Hsame : ∃ c', chatrooms s !! room = Some c' ∧ roomKept c c').
  { exists c. split; [done|]. by split_and!. }
  destruct o; simpl in Hstep.
  - destruct (createChatroom _ _ _ _ _ _ _) as [[s0 id]|] eqn:Hop; [|discriminate].
    injection Hstep as <- <-.
    apply createChatroom_ok_inv in Hop as [-> ->]. simpl.
    rewrite lookup_insert_ne; [done|]. intros <-.
    assert (nextChatroomId s < nextChatroomId s); [|lia].
    apply (inv_rooms_dense s Hinv). by eauto.
  - destruct (sendMessage _ _ _ _ _ _ _ _ _ _) as [s0|] eqn:Hop; [|discriminate].
    injection Hstep as <- <-.
    apply sendMessage_ok_inv in Hop as (k & _ & Hroom & ->). simpl.
    eapply roomKept_insert; [done | done |]. split_and!; simpl; [done | lia | done].
  - destruct (incrementViewCount _ _ _ _) as [s0|] eqn:Hop; [|discriminate].
    injection Hstep as <- <-.
    apply incrementViewCount_ok_inv in Hop as (k & Hroom & ->). simpl.
    eapply roomKept_insert; [done | done |]. split_and!; simpl; [done | done | lia].
  - destruct (pinVideo _ _ _) as [s0|] eqn:Hop; [|discriminate].
    injection Hstep as <- <-.
    apply pinVideo_ok_inv in Hop as (k & Hroom & ->). simpl.
    eapply roomKept_insert; [done | done |]. by split_and!.
  - destruct (unpinVideo _ _) as [s0|] eqn:Hop; [|discriminate].
    injection Hstep as <- <-.
    apply unpinVideo_ok_inv in Hop as (k & Hroom & ->). simpl.
    eapply roomKept_insert; [done | done |]. by split_and!.
  - by injection Hstep as <- <-.
  - by injection Hstep as <- <-.
  - by injection Hstep as <- <-.
  - destruct (cleanupInactiveUsers _ _ _) as [s0|] eqn:Hop; [|discriminate].
    injection Hstep as <- <-.
    by apply cleanupInactiveUsers_ok_inv in Hop as [_ ->].
  - injection Hstep as <- <-. by rewrite addReaction_unfold.
  - by injection Hstep as <- <-.
Qed.

Lemma run_room_kept more s room c :
  wf s → inv s → chatrooms s !! room = Some c →
  ∃ c', chatrooms (run more s) !! room = Some c' ∧ roomKept c c'.
Proof.
  revert s c. induction more as [|[now o] more IH]; intros s c Hwf Hinv Hc; simpl.
  - exists c. split; [done|]. by split_and!.
  - unfold commit. destruct (step now o s) as [[s' a]|] eqn:Hstep.
    + destruct (step_room_kept _ _ _ _ _ _ _ Hinv Hc Hstep) as (c1 & Hc1 & Hk1).
      destruct (IH s' c1) as (c' & Hc' & Hk');
        [by eapply wf_step | by eapply inv_step | done |].
      exists c'. split; [done|].
      destruct Hk1 as (? & ? & ?), Hk' as (? & ? & ?).
      split_and!; [congruence | lia | lia].
    + by apply IH.
Qed.

(** X24.  A room of a reachable state is never removed or overwritten by
    later calls: it stays under its id with the same topic, description,
    media, creation time and category, and its [messageCount] and
    [viewCount] never go down. *)
Theorem rooms_are_kept calls more room chatroom :
  chatrooms (run calls init) !! room = Some chatroom →
  ∃ chatroom',
    chatrooms (run (calls ++ more)%list init) !! room = Some chatroom'
    ∧ Chatroom.id chatroom' = Chatroom.id chatroom
    ∧ Chatroom.topic chatroom' = Chatroom.topic chatroom
    ∧ Chatroom.description chatroom' = Chatroom.description chatroom
    ∧ Chatroom.mediaUrl chatroom' = Chatroom.mediaUrl chatroom
    ∧ Chatroom.mediaType chatroom' = Chatroom.mediaType chatroom
    ∧ Chatroom.createdAt chatroom' = Chatroom.createdAt chatroom
    ∧ Chatroom.category chatroom' = Chatroom.category chatroom
    ∧ Chatroom.messageCount chatroom ≤ Chatroom.messageCount chatroom'
    ∧ Chatroom.viewCount chatroom ≤ Chatroom.viewCount chatroom'.
Proof.
  intros Hc. rewrite run_app.
  destruct (run_room_kept more (run calls init) room chatroom)
    as (c' & Hc' & Hfixed & Hm & Hv);
    [apply wf_reachable | apply inv_reachable | done |].
  exists c'. unfold fixedRoomPart in Hfixed. injection Hfixed as ? ? ? ? ? ? ?.
  by split_and!.
Qed.

Lemma rooms_are_kept_witness :
  ∃ chatroom',
    chatrooms (run (twoVisitors ++ [(0%Z, PinVideo 0 7)])%list init) !! 0
    = Some chatroom'
    ∧ Chatroom.topic chatroom' = "Movie Night".
Proof.
  destruct (rooms_are_kept twoVisitors [(0%Z, PinVideo 0 7)] 0 movieNightRoom)
    as (c' & Hc' & _ & Htopic & _).
  - vm_compute. reflexivity.
  - exists c'. split; [exact Hc' | exact Htopic].
Defined.

(** ** The client's optimistic updates against the actor *)

Lemma getMessageWithReactionsAndReplies_map chatroomId s :
  getMessageWithReactionsAndReplies chatroomId s
  = List.map (λ m, MessageWithReactions.of_message m
                     (getOrNil (reactions s) (Message.id m)))
             (getMessages chatroomId s).
Proof.
  unfold getMessageWithReactionsAndReplies, getMessages.
  by destruct (messages s !! chatroomId).
Qed.

(** X25.  The cache that [useRemoveReaction] writes before the actor
    answers is the actor's answer after [removeReaction] with the records
    of count 0 dropped from the reactions of that message: the client
    hides an emptied record that the actor keeps returning. *)
Theorem optimisticRemove_drops_what_actor_keeps chatroomId messageId emoji userId s :
  optimisticRemove (getMessageWithReactionsAndReplies chatroomId s)
    messageId emoji userId
  = List.map
      (λ msg,
         if bool_decide (MessageWithReactions.id msg = messageId) then
           MessageWithReactions.with_reactions msg
             (List.filter (λ r, 0 <? Reaction.count r)
                          (MessageWithReactions.reactions msg))
         else msg)
      (getMessageWithReactionsAndReplies chatroomId
         (removeReaction messageId emoji userId s)).
Proof.
  rewrite !getMessageWithReactionsAndReplies_map.
  rewrite (getMessages_same chatroomId s (removeReaction messageId emoji userId s))
    by done.
  unfold optimisticRemove. rewrite !List.map_map.
  apply List.map_ext. intros m. simpl.
  case_bool_decide as Hid.
  - unfold MessageWithReactions.with_reactions, MessageWithReactions.of_message.
    simpl. f_equal. rewrite Hid, getOrNil_insert_eq. done.
  - by rewrite getOrNil_insert_ne by done.
Qed.

Lemma emoji_record_unique (l : list Reaction.t) r1 r2 :
  NoDup (List.map Reaction.emoji l) → In r1 l → In r2 l →
  Reaction.emoji r1 = Reaction.emoji r2 → r1 = r2.
Proof.
  induction l as [|r l IH]; simpl; [done|].
  intros [Hr Hnd]%NoDup_cons [<-|H1] [<-|H2] He; try done.
  - exfalso. apply Hr. rewrite He. by apply list_elem_of_In, in_map.
  - exfalso. apply Hr. rewrite <- He. by apply list_elem_of_In, in_map.
  - by apply IH.
Qed.

Lemma optimisticAddReactions_unique (l : list Reaction.t) emoji userId :
  NoDup (List.map Reaction.emoji l) →
  optimisticAddReactions l emoji userId
  = if existsb (hasEmoji emoji) l
    then List.map (addReaction_bump emoji userId) l
    else (l ++ [{| Reaction.emoji := emoji; Reaction.count := 1;
                   Reaction.users := [userId] |}])%list.
Proof.
  intros Hnd. unfold optimisticAddReactions.
  destruct (List.find _ l) as [r0|] eqn:Hfind.
  - apply find_some in Hfind as [Hin0 He0]. apply bool_decide_eq_true in He0.
    replace (existsb (hasEmoji emoji) l) with true.
    2:{ symmetry. apply existsb_exists. exists r0.
        split; [done | by apply bool_decide_eq_true]. }
    destruct (existsb _ (Reaction.users r0)) eqn:Hs; simpl.
    + rewrite <- (List.map_id l) at 1. apply map_ext_in. intros r Hr.
      unfold addReaction_bump. case_bool_decide as He; [|done].
      assert (r = r0) as -> by (apply (emoji_record_unique l); congruence).
      unfold some. by rewrite Hs.
    + apply map_ext_in. intros r Hr.
      unfold addReaction_bump. case_bool_decide as He; [|done].
      assert (r = r0) as -> by (apply (emoji_record_unique l); congruence).
      unfold some. by rewrite Hs.
  - replace (existsb (hasEmoji emoji) l) with false; [done|].
    symmetry. apply not_true_iff_false.
    intros (r & Hr & He)%existsb_exists.
    pose proof (find_none _ _ Hfind r Hr) as Hne. simpl in Hne.
    unfold hasEmoji in He. congruence.
Qed.

(** X26.  In every reachable state, when the emoji already has a record on
    the message, the cache that [useAddReaction] writes before the actor
    answers is exactly the actor's answer after [addReaction].  When the
    emoji has no record yet, the two agree on every message and on the
    reactions of every other message, and for that message both hold the
    old records and the new one, which the client puts last and the actor
    first. *)
Theorem optimisticAdd_against_actor calls chatroomId messageId emoji userId :
  let s := run calls init in
  let cache := getMessageWithReactionsAndReplies chatroomId s in
  let answer :=
    getMessageWithReactionsAndReplies chatroomId
      (addReaction messageId emoji userId s) in
  let added :=
    {| Reaction.emoji := emoji; Reaction.count := 1; Reaction.users := [userId] |} in
  ((∃ r, r ∈ getReactions messageId s ∧ Reaction.emoji r = emoji) →
   optimisticAdd cache messageId emoji userId = answer)
  ∧ ((∀ r, r ∈ getReactions messageId s → Reaction.emoji r ≠ emoji) →
     optimisticAdd cache messageId emoji userId
     = List.map
         (λ msg, if bool_decide (MessageWithReactions.id msg = messageId)
                 then MessageWithReactions.with_reactions msg
                        (getReactions messageId s ++ [added])%list
                 else msg) cache
     ∧ answer
       = List.map
           (λ msg, if bool_decide (MessageWithReactions.id msg = messageId)
                   then MessageWithReactions.with_reactions msg
                          (added :: getReactions messageId s)
                   else msg) cache).
Proof.
  intros s cache answer added.
  destruct (inv_reachable calls) as [_ _ _ _ Hre _ _ _]. fold s in Hre.
  assert (Hnd : NoDup (List.map Reaction.emoji (getOrNil (reactions s) messageId))).
  { unfold getOrNil. destruct (reactions s !! messageId) as [l|] eqn:Hl.
    - by apply (Hre messageId).
    - constructor. }
  assert (Hopt : optimisticAdd cache messageId emoji userId
            = List.map
                (λ m, MessageWithReactions.of_message m
                        (if bool_decide (Message.id m = messageId)
                         then optimisticAddReactions
                                (getOrNil (reactions s) messageId) emoji userId
                         else getOrNil (reactions s) (Message.id m)))
                (getMessages chatroomId s)).
  { unfold cache, optimisticAdd.
    rewrite getMessageWithReactionsAndReplies_map, List.map_map.
    apply List.map_ext. intros m. simpl. case_bool_decide as Hid; [|done].
    by rewrite Hid. }
  assert (Hans : answer
            = List.map
                (λ m, MessageWithReactions.of_message m
                        (if bool_decide (Message.id m = messageId)
                         then (if existsb (hasEmoji emoji)
                                    (getOrNil (reactions s) messageId)
                               then List.map (addReaction_bump emoji userId)
                                      (getOrNil (reactions s) messageId)
                               else added :: getOrNil (reactions s) messageId)
                         else getOrNil (reactions s) (Message.id m)))
                (getMessages chatroomId s)).
  { unfold answer. rewrite getMessageWithReactionsAndReplies_map.
    rewrite (getMessages_same chatroomId s (addReaction messageId emoji userId s))
      by (by rewrite addReaction_unfold).
    apply List.map_ext. intros m. rewrite addReaction_unfold. simpl.
    case_bool_decide as Hid.
    - by rewrite Hid, getOrNil_insert_eq.
    - by rewrite getOrNil_insert_ne. }
  rewrite Hopt, Hans, optimisticAddReactions_unique by done.
  rewrite getReactions_getOrNil. split.
  - intros (r0 & Hr0 & He0).
    replace (existsb (hasEmoji emoji) (getOrNil (reactions s) messageId)) with true;
      [done|].
    symmetry. apply existsb_exists. exists r0.
    split; [by apply list_elem_of_In | by apply bool_decide_eq_true].
  - intros Hnone.
    replace (existsb (hasEmoji emoji) (getOrNil (reactions s) messageId)) with false.
    2:{ symmetry. apply not_true_iff_false.
        intros (r & Hr & He)%existsb_exists. apply bool_decide_eq_true in He.
        by apply (Hnone r); [apply list_elem_of_In|]. }
    unfold cache. rewrite getMessageWithReactionsAndReplies_map, !List.map_map.
    split; apply List.map_ext; intros m; simpl; by case_bool_decide.
Qed.

Lemma optimisticAdd_against_actor_witness :
  optimisticAdd
    (getMessageWithReactionsAndReplies 0
       (run (twoVisitors ++ [(0%Z, AddReaction 1 "fire" "u1")])%list init))
    1 "fire" "u2"
  = getMessageWithReactionsAndReplies 0
      (addReaction 1 "fire" "u2"
         (run (twoVisitors ++ [(0%Z, AddReaction 1 "fire" "u1")])%list init)).
Proof.
  apply (optimisticAdd_against_actor
           (twoVisitors ++ [(0%Z, AddReaction 1 "fire" "u1")])%list 0 1 "fire" "u2").
  exists {| Reaction.emoji := "fire"; Reaction.count := 1; Reaction.users := ["u1"] |}.
  split; [|reflexivity]. vm_compute. apply list_elem_of_In. by left.
Defined.

(** ** Media validation *)

Lemma prefix_app_contains (a p t : string) :
  String.prefix (a ++ p) t = true → Text.contains t p = true.
Proof.
  revert t. induction a as [|c a IH]; intros t.
  - change ("" ++ p) with p. intros Hp.
    destruct t; cbn [Text.contains]; unfold Text.startsWith; by rewrite Hp.
  - change (String c a ++ p) with (String c (a ++ p)).
    destruct t as [|c' t]; [done|]. cbn [String.prefix].
    destruct (ascii_dec c c'); [|done]. intros Hp%IH.
    cbn [Text.contains]. rewrite Hp. by destruct (Text.startsWith _ _).
Qed.

Lemma contains_app (a p t : string) :
  Text.contains t (a ++ p) = true → Text.contains t p = true.
Proof.
  induction t as [|c t IH].
  - cbn [Text.contains]. unfold Text.startsWith at 1.
    destruct (String.prefix (a ++ p) "") eqn:Hp; [|done].
    intros _. by apply (prefix_app_contains a p "").
  - cbn [Text.contains]. unfold Text.startsWith at 1.
    destruct (String.prefix (a ++ p) (String c t)) eqn:Hp.
    + intros _. by apply (prefix_app_contains a p (String c t)).
    + intros Ht%IH. rewrite Ht. by destruct (Text.startsWith _ _).
Qed.

(** X27.  [validateMediaUrl] accepts only the media types "image",
    "youtube", "twitch" and "twitter", compared as given (not case-folded),
    whatever the URL; and in [isValidTwitchUrl] the test for
    "clips.twitch.tv" never decides: a URL is accepted exactly when it
    contains "twitch.tv". *)
Theorem validateMediaUrl_types_and_twitch url mediaType :
  (validateMediaUrl url mediaType = true →
   mediaType = "image" ∨ mediaType = "youtube" ∨ mediaType = "twitch"
   ∨ mediaType = "twitter")
  ∧ isValidTwitchUrl url = Text.contains url "twitch.tv"
  ∧ validateMediaUrl url "twitch"
    = Text.contains (Text.toLowercase url) "twitch.tv".
Proof.
  assert (Htwitch : ∀ u, isValidTwitchUrl u = Text.contains u "twitch.tv").
  { intros u. unfold isValidTwitchUrl.
    destruct (Text.contains u "twitch.tv") eqn:H1; [done|]. simpl.
    destruct (Text.contains u "clips.twitch.tv") eqn:H2; [|done].
    apply (contains_app "clips." "twitch.tv") in H2. congruence. }
  split_and!.
  - apply validateMediaUrl_types.
  - apply Htwitch.
  - unfold validateMediaUrl. simpl. apply Htwitch.
Qed.

(** ** Reading back what was sent *)

(** X28.  After a [sendMessage] that returns, the new message has the id
    of the old message counter; [getReplyPreview] for that id in that room
    describes it (display name, media URL, first 100 characters of the
    content); if it was sent as a reply, it is the last entry of
    [getReplies] for its parent, whether or not a message with the
    parent's id exists in the room, and [getReplies] for every other
    parent is as before. *)
Theorem sendMessage_read_back content sender chatroomId mediaUrl mediaType
    avatarUrl senderId replyToMessageId now s s' :
  sendMessage content sender chatroomId mediaUrl mediaType avatarUrl senderId
    replyToMessageId now s = Ok s' →
  getReplyPreview chatroomId (nextMessageId s) s'
  = Some {| ReplyPreview.messageId := nextMessageId s;
            ReplyPreview.sender := sender;
            ReplyPreview.contentSnippet :=
              Text.fromArray (firstn 100 (Text.toArray content));
            ReplyPreview.mediaThumbnail := mediaUrl |}
  ∧ (∀ parent, replyToMessageId = Some parent →
       getReplies chatroomId parent s'
       = (getReplies chatroomId parent s
          ++ [Message.mk (nextMessageId s) content now sender chatroomId mediaUrl
                mediaType avatarUrl senderId (Some parent)])%list)
  ∧ (∀ parent, replyToMessageId ≠ Some parent →
       getReplies chatroomId parent s' = getReplies chatroomId parent s).
Proof.
  intros (c & _ & Hroom & ->)%sendMessage_ok_inv. split_and!.
  - unfold getReplyPreview. simpl. rewrite lookup_insert_eq. simpl.
    rewrite bool_decide_eq_true_2 by done. simpl. do 2 f_equal.
    apply snippet_firstn.
  - intros parent ->. rewrite !getReplies_filter, !getMessages_getOrNil. simpl.
    rewrite getOrNil_insert_eq. simpl. rewrite List.filter_app. simpl.
    unfold isReplyTo at 2. simpl. by rewrite bool_decide_eq_true_2.
  - intros parent Hne. rewrite !getReplies_filter, !getMessages_getOrNil. simpl.
    rewrite getOrNil_insert_eq. simpl. rewrite List.filter_app. simpl.
    replace (isReplyTo parent _) with false; [by rewrite app_nil_r|].
    symmetry. apply not_true_iff_false. intros Hr%isReplyTo_spec. simpl in Hr.
    done.
Qed.

Lemma sendMessage_read_back_witness :
  getReplyPreview 0 1 (run [(0%Z, movieNight);
                            (0%Z, SendMessage "hi" "Alice" 0 None None None "u1" None)]
                         init)
  = Some {| ReplyPreview.messageId := 1;
            ReplyPreview.sender := "Alice";
            ReplyPreview.contentSnippet := "hi";
            ReplyPreview.mediaThumbnail := None |}.
Proof.
  apply (sendMessage_read_back "hi" "Alice" 0 None None None "u1" None 0%Z
           (run [(0%Z, movieNight)] init)).
  vm_compute. reflexivity.
Defined.

(** ** Removing a reaction that is there *)

Lemma filter_member_length (userId : string) users :
  NoDup users → userId ∈ users →
  length (List.filter (λ user, negb (bool_decide (user = userId))) users) + 1
  = length users.
Proof.
  induction users as [|u users IH]; simpl; [by intros _ ?%elem_of_nil|].
  intros [Hu Hnd]%NoDup_cons Hin.
  destruct (decide (u = userId)) as [->|Hne].
  - rewrite bool_decide_eq_true_2 by done. simpl.
    rewrite filter_absent by done. lia.
  - rewrite bool_decide_eq_false_2 by done. simpl.
    apply elem_of_cons in Hin as [->|Hin]; [done|]. rewrite <- IH by done. lia.
Qed.

(** X29.  When every record of the emoji on the message lists the
    identity, has no identity twice and has a count equal to the number of
    its identities, [removeReaction] keeps every count of the message equal
    to the number of identities of its record. *)
Theorem removeReaction_of_member_keeps_count messageId emoji userId s :
  Forall countMatchesUsers (getReactions messageId s) →
  (∀ r, r ∈ getReactions messageId s → Reaction.emoji r = emoji →
        NoDup (Reaction.users r) ∧ userId ∈ Reaction.users r) →
  Forall countMatchesUsers
    (getReactions messageId (removeReaction messageId emoji userId s)).
Proof.
  rewrite !getReactions_getOrNil. unfold removeReaction. simpl.
  rewrite getOrNil_insert_eq. intros Hall Hmember.
  apply Forall_forall. intros r Hr.
  apply list_elem_of_In, in_map_iff in Hr as (r0 & <- & Hr0).
  apply list_elem_of_In in Hr0.
  rewrite Forall_forall in Hall. specialize (Hall r0 Hr0).
  unfold removeReaction_patch. case_bool_decide as He; [|done].
  destruct (Hmember r0 Hr0 He) as [Hnd Hin].
  unfold countMatchesUsers in *. simpl.
  pose proof (filter_member_length userId _ Hnd Hin).
  destruct (0 <? Reaction.count r0) eqn:Hpos; [lia|].
  apply Nat.ltb_ge in Hpos. lia.
Qed.

Lemma removeReaction_of_member_keeps_count_witness :
  Forall countMatchesUsers
    (getReactions 0
       (removeReaction 0 "fire" "u1"
          (addReaction 0 "fire" "u2" (addReaction 0 "fire" "u1" init)))).
Proof.
  apply (removeReaction_of_member_keeps_count 0 "fire" "u1"
           (addReaction 0 "fire" "u2" (addReaction 0 "fire" "u1" init))).
  - vm_compute. constructor; [reflexivity | constructor].
  - intros r Hr _. vm_compute in Hr.
    apply list_elem_of_singleton in Hr as ->. simpl. split.
    + apply NoDup_cons. split; [by intros [=]%list_elem_of_singleton|].
      apply NoDup_singleton.
    + apply elem_of_cons. right. by apply list_elem_of_singleton.
Defined.
